(** * favlens: the fetch / normalize / compare pipeline

    A shallow embedding of [cmd/favlens/main.go] and [pkg/ollama/ollama.go].

    - Go strings are byte strings, modelled as [string] (a list of [ascii]
      bytes); a Go [int] is a [Z]; a Go [error] is its message, [None]
      being nil.
    - The network, the image codecs and the JSON codec are the environment:
      the HTTP client is a function from the request to what comes back,
      the codecs are the fields of a class.
    - Goroutines and channels are a step relation on the state of the pool;
      the process is running with such a state, or has exited.
    - Calls to [gologger] only write to the log: they are left out, with the
      [debug] flags that guard nothing else.  Sleeping changes no value and
      is left out as well. *)

From Stdlib Require Import ZArith Lia Ascii String List Bool.
From Stdlib Require Import DecimalString.
From stdpp Require Import base list strings.

Local Open Scope string_scope.
Local Open Scope list_scope.

(** ** The Go [strings] package, as far as the program uses it *)

Module GoStrings.

(** Byte literals that cannot be typed inside a Rocq string. *)
Definition LF : ascii := "010"%char.
Definition DQ : ascii := "034"%char.

Definition char_eqb (a b : ascii) : bool := Ascii.eqb a b.

(** [unq] turns every apostrophe into a double quote, so that JSON texts
    can be written down readably. *)
Fixpoint unq (s : string) : string :=
  match s with
  | EmptyString => EmptyString
  | String c t => String (if char_eqb c "'"%char then DQ else c) (unq t)
  end.

(** [strings.HasPrefix(s, p)] *)
Fixpoint HasPrefix (s p : string) {struct p} : bool :=
  match p, s with
  | EmptyString, _ => true
  | String _ _, EmptyString => false
  | String b p', String a s' => char_eqb a b && HasPrefix s' p'
  end.

(** [strings.HasSuffix(s, suffix)]:
    [len(s) >= len(suffix) && s[len(s)-len(suffix):] == suffix] *)
Definition HasSuffix (s suffix : string) : bool :=
  (String.length suffix <=? String.length s)%nat
  && String.eqb
       (substring (String.length s - String.length suffix)
                  (String.length suffix) s)
       suffix.

(** [strings.TrimSuffix(s, suffix)] *)
Definition TrimSuffix (s suffix : string) : string :=
  if HasSuffix s suffix
  then substring 0 (String.length s - String.length suffix) s
  else s.

(** [strings.Contains(s, substr)]: some position of [s] starts [substr]. *)
Fixpoint Contains (s substr : string) : bool :=
  HasPrefix s substr
  || match s with
     | EmptyString => false
     | String _ t => Contains t substr
     end.

(** [strings.Split(s, "\n")]: the separator is the single byte LF.  The
    result is never empty: an empty [s] gives one empty field. *)
Fixpoint Split (s : string) : list string :=
  match s with
  | EmptyString => [EmptyString]
  | String c t =>
      if char_eqb c LF then EmptyString :: Split t
      else match Split t with
           | h :: r => String c h :: r
           | [] => [String c EmptyString]
           end
  end.

(** [strings.Join(fields, "\n")] *)
Fixpoint Join (fields : list string) : string :=
  match fields with
  | [] => EmptyString
  | [f] => f
  | f :: r => f +:+ String LF (Join r)
  end.

(** White space as [unicode.IsSpace] sees it, on the UTF-8 bytes.
    One-byte runes: TAB, LF, VT, FF, CR, SPACE. *)
Definition space1 (a : ascii) : bool :=
  let n := nat_of_ascii a in
  ((9 <=? n) && (n <=? 13))%nat || (n =? 32)%nat.

(** Two-byte runes: U+0085 (C2 85) and U+00A0 (C2 A0). *)
Definition space2 (a b : ascii) : bool :=
  (nat_of_ascii a =? 194)%nat
  && ((nat_of_ascii b =? 133)%nat || (nat_of_ascii b =? 160)%nat).

(** Three-byte runes: U+1680 (E1 9A 80), U+2000..U+200A (E2 80 80..8A),
    U+2028, U+2029 (E2 80 A8, A9), U+202F (E2 80 AF), U+205F (E2 81 9F),
    U+3000 (E3 80 80). *)
Definition space3 (a b c : ascii) : bool :=
  let x := nat_of_ascii a in
  let y := nat_of_ascii b in
  let z := nat_of_ascii c in
  ((x =? 225) && (y =? 154) && (z =? 128))%nat
  || ((x =? 226) && (y =? 128)
      && (((128 <=? z) && (z <=? 138)) || (z =? 168) || (z =? 169)
          || (z =? 175)))%nat
  || ((x =? 226) && (y =? 129) && (z =? 159))%nat
  || ((x =? 227) && (y =? 128) && (z =? 128))%nat.

(** [strings.TrimLeftFunc(s, unicode.IsSpace)] on bytes: drop white-space
    runes while one starts the text. *)
Fixpoint TrimLeft (s : list ascii) : list ascii :=
  match s with
  | [] => []
  | a :: t =>
      if space1 a then TrimLeft t
      else match t with
           | [] => s
           | b :: t2 =>
               if space2 a b then TrimLeft t2
               else match t2 with
                    | [] => s
                    | c :: t3 => if space3 a b c then TrimLeft t3 else s
                    end
           end
  end.

(** [strings.TrimRightFunc(s, unicode.IsSpace)]: the last rune is found
    by walking back over continuation bytes, so on the reversed bytes the
    white-space runes appear with their bytes reversed. *)
Fixpoint TrimLeftRev (s : list ascii) : list ascii :=
  match s with
  | [] => []
  | a :: t =>
      if space1 a then TrimLeftRev t
      else match t with
           | [] => s
           | b :: t2 =>
               if space2 b a then TrimLeftRev t2
               else match t2 with
                    | [] => s
                    | c :: t3 => if space3 c b a then TrimLeftRev t3 else s
                    end
           end
  end.

Definition TrimRight (s : list ascii) : list ascii :=
  rev (TrimLeftRev (rev s)).

(** [strings.TrimSpace(s)] = [TrimRightFunc(TrimLeftFunc(s, IsSpace), IsSpace)] *)
Definition TrimSpace (s : string) : string :=
  string_of_list_ascii (TrimRight (TrimLeft (list_ascii_of_string s))).

End GoStrings.

(** ** [encoding/base64], the standard alphabet with padding *)

Module Base64.

Import GoStrings.

(** Six bits, most significant first. *)
Definition sextet : Type := bool * bool * bool * bool * bool * bool.

Definition alphabet : string :=
  "ABCDEFGHIJKLMNOPQRSTUVWXYZabcdefghijklmnopqrstuvwxyz0123456789+/".

Definition pad : ascii := "="%char.

Definition bit (b : bool) (w : nat) : nat := if b then w else 0.

Definition sextet_index (x : sextet) : nat :=
  let '(x5, x4, x3, x2, x1, x0) := x in
  bit x5 32 + bit x4 16 + bit x3 8 + bit x2 4 + bit x1 2 + bit x0 1.

Definition index_sextet (n : nat) : sextet :=
  (Nat.testbit n 5, Nat.testbit n 4, Nat.testbit n 3,
   Nat.testbit n 2, Nat.testbit n 1, Nat.testbit n 0).

(** [enc.encode[v]] *)
Definition enc_char (x : sextet) : ascii :=
  match String.get (sextet_index x) alphabet with
  | Some c => c
  | None => pad
  end.

(** [enc.decodeMap[c]]: the position of [c] in the alphabet. *)
Definition dec_char (c : ascii) : option sextet :=
  let n := nat_of_ascii c in
  if ((65 <=? n) && (n <=? 90))%nat then Some (index_sextet (n - 65))
  else if ((97 <=? n) && (n <=? 122))%nat then Some (index_sextet (n - 71))
  else if ((48 <=? n) && (n <=? 57))%nat then Some (index_sextet (n + 4))
  else if (n =? 43)%nat then Some (index_sextet 62)
  else if (n =? 47)%nat then Some (index_sextet 63)
  else None.

(** The four sextets of a 24-bit group [a b c]; a missing byte counts as
    zero bits. *)
Definition hi6 (a : ascii) : sextet :=
  let '(Ascii _ _ a2 a3 a4 a5 a6 a7) := a in (a7, a6, a5, a4, a3, a2).
Definition lo2_hi4 (a b : ascii) : sextet :=
  let '(Ascii a0 a1 _ _ _ _ _ _) := a in
  let '(Ascii _ _ _ _ b4 b5 b6 b7) := b in (a1, a0, b7, b6, b5, b4).
Definition lo4_hi2 (b c : ascii) : sextet :=
  let '(Ascii b0 b1 b2 b3 _ _ _ _) := b in
  let '(Ascii _ _ _ _ _ _ c6 c7) := c in (b3, b2, b1, b0, c7, c6).
Definition lo6 (c : ascii) : sextet :=
  let '(Ascii c0 c1 c2 c3 c4 c5 _ _) := c in (c5, c4, c3, c2, c1, c0).

(** [StdEncoding.EncodeToString(src)] *)
Fixpoint EncodeToString (src : string) : string :=
  match src with
  | EmptyString => EmptyString
  | String a EmptyString =>
      String (enc_char (hi6 a)) (String (enc_char (lo2_hi4 a zero))
        (String pad (String pad EmptyString)))
  | String a (String b EmptyString) =>
      String (enc_char (hi6 a)) (String (enc_char (lo2_hi4 a b))
        (String (enc_char (lo4_hi2 b zero)) (String pad EmptyString)))
  | String a (String b (String c rest)) =>
      String (enc_char (hi6 a)) (String (enc_char (lo2_hi4 a b))
        (String (enc_char (lo4_hi2 b c)) (String (enc_char (lo6 c))
          (EncodeToString rest))))
  end.

(** The bytes of a group, from its sextets. *)
Definition byte1 (s1 s2 : sextet) : ascii :=
  let '(x7, x6, x5, x4, x3, x2) := s1 in
  let '(x1, x0, _, _, _, _) := s2 in Ascii x0 x1 x2 x3 x4 x5 x6 x7.
Definition byte2 (s2 s3 : sextet) : ascii :=
  let '(_, _, y7, y6, y5, y4) := s2 in
  let '(y3, y2, y1, y0, _, _) := s3 in Ascii y0 y1 y2 y3 y4 y5 y6 y7.
Definition byte3 (s3 s4 : sextet) : ascii :=
  let '(_, _, _, _, z7, z6) := s3 in
  let '(z5, z4, z3, z2, z1, z0) := s4 in Ascii z0 z1 z2 z3 z4 z5 z6 z7.

(** The decoder of RFC 4648 section 4 (padding required, no line breaks):
    the reading of a payload by whoever receives it.
    The program itself only encodes. *)
Fixpoint DecodeString (s : string) : option string :=
  match s with
  | EmptyString => Some EmptyString
  | String c1 (String c2 (String c3 (String c4 rest))) =>
      if char_eqb c4 pad then
        match rest with
        | EmptyString =>
            if char_eqb c3 pad then
              match dec_char c1, dec_char c2 with
              | Some s1, Some s2 => Some (String (byte1 s1 s2) EmptyString)
              | _, _ => None
              end
            else
              match dec_char c1, dec_char c2, dec_char c3 with
              | Some s1, Some s2, Some s3 =>
                  Some (String (byte1 s1 s2)
                          (String (byte2 s2 s3) EmptyString))
              | _, _, _ => None
              end
        | String _ _ => None
        end
      else
        match dec_char c1, dec_char c2, dec_char c3, dec_char c4 with
        | Some s1, Some s2, Some s3, Some s4 =>
            match DecodeString rest with
            | Some r =>
                Some (String (byte1 s1 s2) (String (byte2 s2 s3)
                        (String (byte3 s3 s4) r)))
            | None => None
            end
        | _, _, _, _ => None
        end
  | _ => None
  end.

End Base64.

(** ** [encoding/json]: the values a decoder builds for an [any] target,
       and a decoder for them *)

Module Json.

Import GoStrings.

(** What [json.Unmarshal] stores into an [any]: [nil], [bool], [float64]
    (kept here as the literal it was read from; the program never looks at
    a number), [string], [[]any] and [map[string]any]. *)
#[warnings="-register-all"]
Inductive value : Type :=
| VNull
| VBool (b : bool)
| VNumber (literal : string)
| VString (s : string)
| VArray (items : list value)
| VObject (fields : list (string * value)).

(** A [map[string]any] is a list of bindings, the newest first. *)
Definition object : Type := list (string * value).

(** [m[key]], with the [ok] of the comma-ok form as [Some]. *)
Fixpoint get (m : object) (key : string) : option value :=
  match m with
  | [] => None
  | (k, v) :: r => if String.eqb k key then Some v else get r key
  end.

(** [m[key] = v] *)
Definition set (m : object) (key : string) (v : value) : object :=
  (key, v) :: m.

(** The type assertions [x.(map[string]any)], [x.(string)], [x.(bool)]
    on the result of an index expression (a missing key gives [nil],
    which no assertion accepts). *)
Definition as_object (x : option value) : option object :=
  match x with Some (VObject m) => Some m | _ => None end.
Definition as_string (x : option value) : option string :=
  match x with Some (VString s) => Some s | _ => None end.
Definition as_bool (x : option value) : option bool :=
  match x with Some (VBool b) => Some b | _ => None end.

(** *** A decoder *)

Definition code (c : ascii) : N := N_of_ascii c.
Definition byte (n : N) : ascii := ascii_of_N (n mod 256).

Definition is_ws (c : ascii) : bool :=
  let n := code c in
  ((n =? 32) || (n =? 9) || (n =? 10) || (n =? 13))%N.

Fixpoint skip_ws (s : string) : string :=
  match s with
  | String c t => if is_ws c then skip_ws t else s
  | EmptyString => s
  end.

Definition is_digit (c : ascii) : bool :=
  let n := code c in ((48 <=? n) && (n <=? 57))%N.

Definition hex (c : ascii) : option N :=
  let n := code c in
  if ((48 <=? n) && (n <=? 57))%N then Some (n - 48)%N
  else if ((97 <=? n) && (n <=? 102))%N then Some (n - 87)%N
  else if ((65 <=? n) && (n <=? 70))%N then Some (n - 55)%N
  else None.

(** [getu4]: the rune of four hexadecimal digits. *)
Definition hex4 (a b c d : ascii) : option N :=
  match hex a, hex b, hex c, hex d with
  | Some x, Some y, Some z, Some w =>
      Some (x * 4096 + y * 256 + z * 16 + w)%N
  | _, _, _, _ => None
  end.

(** [utf8.AppendRune]; surrogates and runes above U+10FFFF become
    U+FFFD. *)
Definition replacement : string :=
  String (byte 239) (String (byte 191) (String (byte 189) EmptyString)).

Definition utf8 (r : N) : string :=
  if (r <? 128)%N then String (byte r) EmptyString
  else if (r <? 2048)%N then
    String (byte (192 + r / 64)) (String (byte (128 + r mod 64)) EmptyString)
  else if ((55296 <=? r) && (r <=? 57343))%N then replacement
  else if (r <? 65536)%N then
    String (byte (224 + r / 4096))
      (String (byte (128 + (r / 64) mod 64))
         (String (byte (128 + r mod 64)) EmptyString))
  else if (r <=? 1114111)%N then
    String (byte (240 + r / 262144))
      (String (byte (128 + (r / 4096) mod 64))
         (String (byte (128 + (r / 64) mod 64))
            (String (byte (128 + r mod 64)) EmptyString)))
  else replacement.

Definition between (lo hi : N) (c : ascii) : bool :=
  ((lo <=? code c) && (code c <=? hi))%N.

(** [utf8.DecodeRune] on a text that starts with a byte above 0x7F: the
    number of bytes that follow the first one in a well-formed rune, or
    [None] for [RuneError]. *)
Definition utf8_tail (s : string) : option nat :=
  match s with
  | String a t =>
      let n := code a in
      let cont := between 128 191 in
      if ((194 <=? n) && (n <=? 223))%N then
        match t with String b _ => if cont b then Some 1%nat else None
                | _ => None end
      else if ((224 <=? n) && (n <=? 239))%N then
        match t with
        | String b (String c _) =>
            let lo := if (n =? 224)%N then 160%N else 128%N in
            let hi := if (n =? 237)%N then 159%N else 191%N in
            if between lo hi b && cont c then Some 2%nat else None
        | _ => None
        end
      else if ((240 <=? n) && (n <=? 244))%N then
        match t with
        | String b (String c (String d _)) =>
            let lo := if (n =? 240)%N then 144%N else 128%N in
            let hi := if (n =? 244)%N then 143%N else 191%N in
            if between lo hi b && cont c && cont d then Some 3%nat
            else None
        | _ => None
        end
      else None
  | EmptyString => None
  end.

(** One-letter escapes. *)
Definition escape (e : ascii) : option ascii :=
  let n := code e in
  if (n =? 34)%N || (n =? 92)%N || (n =? 47)%N then Some e
  else if (n =? 98)%N then Some (byte 8)
  else if (n =? 102)%N then Some (byte 12)
  else if (n =? 110)%N then Some (byte 10)
  else if (n =? 114)%N then Some (byte 13)
  else if (n =? 116)%N then Some (byte 9)
  else None.

Definition cons_fst (c : ascii) (r : option (string * string))
  : option (string * string) :=
  match r with Some (x, rest) => Some (String c x, rest) | None => None end.

Definition app_fst (p : string) (r : option (string * string))
  : option (string * string) :=
  match r with Some (x, rest) => Some (p +:+ x, rest) | None => None end.

(** The text of a string literal after its opening quote: the decoded
    bytes and what follows the closing quote.  [copy] counts the bytes of
    a well-formed rune that are still to be taken as they are. *)
Fixpoint string_body (s : string) (copy : nat) : option (string * string) :=
  match s with
  | EmptyString => None
  | String c t =>
      match copy with
      | S k => cons_fst c (string_body t k)
      | O =>
          if (code c =? 34)%N then Some (EmptyString, t)
          else if (code c =? 92)%N then
            match t with
            | EmptyString => None
            | String e t1 =>
                if (code e =? 117)%N then
                  match t1 with
                  | String h1 (String h2 (String h3 (String h4 t4))) =>
                      match hex4 h1 h2 h3 h4 with
                      | None => None
                      | Some r =>
                          if ((55296 <=? r) && (r <=? 56319))%N then
                            match t4 with
                            | String b (String u (String k1 (String k2
                                (String k3 (String k4 t10))))) =>
                                match hex4 k1 k2 k3 k4 with
                                | Some r2 =>
                                    if (code b =? 92)%N && (code u =? 117)%N
                                       && (56320 <=? r2)%N && (r2 <=? 57343)%N
                                    then app_fst
                                           (utf8 ((r - 55296) * 1024
                                                  + (r2 - 56320) + 65536))
                                           (string_body t10 0)
                                    else app_fst replacement
                                           (string_body t4 0)
                                | None =>
                                    app_fst replacement (string_body t4 0)
                                end
                            | _ => app_fst replacement (string_body t4 0)
                            end
                          else app_fst (utf8 r) (string_body t4 0)
                      end
                  | _ => None
                  end
                else
                  match escape e with
                  | Some x => cons_fst x (string_body t1 0)
                  | None => None
                  end
            end
          else if (code c <? 32)%N then None
          else if (code c <? 128)%N then cons_fst c (string_body t 0)
          else
            match utf8_tail s with
            | Some k => cons_fst c (string_body t k)
            | None => app_fst replacement (string_body t 0)
            end
      end
  end.

(** The longest run of digits. *)
Fixpoint digits (s : string) : string * string :=
  match s with
  | String c t =>
      if is_digit c then let '(d, r) := digits t in (String c d, r)
      else (EmptyString, s)
  | EmptyString => (EmptyString, s)
  end.

(** A number literal: an optional minus sign; then a single zero, or a
    nonzero digit and any digits; then optionally a point and one or more
    digits; then optionally [e] or [E], an optional sign and one or more
    digits. *)
Definition number (s : string) : option (string * string) :=
  let '(sign, s1) :=
    match s with
    | String c t => if (code c =? 45)%N then (String c EmptyString, t)
                    else (EmptyString, s)
    | EmptyString => (EmptyString, s)
    end in
  let '(int, s2) :=
    match s1 with
    | String c t => if (code c =? 48)%N then (String c EmptyString, t)
                    else digits s1
    | EmptyString => (EmptyString, s1)
    end in
  match int with
  | EmptyString => None
  | String _ _ =>
      let frac :=
        match s2 with
        | String c t =>
            if (code c =? 46)%N then
              match digits t with
              | (EmptyString, _) => None
              | (d, r) => Some (String c d, r)
              end
            else Some (EmptyString, s2)
        | EmptyString => Some (EmptyString, s2)
        end in
      match frac with
      | None => None
      | Some (fr, s3) =>
          let exp :=
            match s3 with
            | String c t =>
                if (code c =? 101)%N || (code c =? 69)%N then
                  let '(sg, t') :=
                    match t with
                    | String g u =>
                        if (code g =? 43)%N || (code g =? 45)%N
                        then (String g EmptyString, u)
                        else (EmptyString, t)
                    | EmptyString => (EmptyString, t)
                    end in
                  match digits t' with
                  | (EmptyString, _) => None
                  | (d, r) => Some (String c (sg +:+ d), r)
                  end
                else Some (EmptyString, s3)
            | EmptyString => Some (EmptyString, s3)
            end in
          match exp with
          | None => None
          | Some (ex, s4) => Some (sign +:+ int +:+ fr +:+ ex, s4)
          end
      end
  end.

Definition keyword (w : string) (v : value) (s : string)
  : option (value * string) :=
  if HasPrefix s w
  then Some (v, substring (String.length w)
                          (String.length s - String.length w) s)
  else None.

(** The scanner refuses more than 10000 open arrays and objects. *)
Definition maxNestingDepth : N := 10000.

(** One value, then the rest of the text.  [fuel] bounds the number of
    nested calls; [Unmarshal] gives it the length of the text plus one
    (a call that succeeds has read at least one byte). *)
Fixpoint parse_value (fuel : nat) (depth : N) (s : string)
  : option (value * string) :=
  match fuel with
  | O => None
  | S f =>
      match skip_ws s with
      | EmptyString => None
      | String c t =>
          if (code c =? 123)%N then
            if (maxNestingDepth <=? depth)%N then None
            else
              match skip_ws t with
              | String c' t' =>
                  if (code c' =? 125)%N then Some (VObject [], t')
                  else parse_members f (depth + 1) t []
              | EmptyString => None
              end
          else if (code c =? 91)%N then
            if (maxNestingDepth <=? depth)%N then None
            else
              match skip_ws t with
              | String c' t' =>
                  if (code c' =? 93)%N then Some (VArray [], t')
                  else parse_items f (depth + 1) t []
              | EmptyString => None
              end
          else if (code c =? 34)%N then
            match string_body t 0 with
            | Some (x, r) => Some (VString x, r)
            | None => None
            end
          else if (code c =? 45)%N || is_digit c then
            match number (String c t) with
            | Some (x, r) => Some (VNumber x, r)
            | None => None
            end
          else if (code c =? 116)%N then keyword "true" (VBool true) (String c t)
          else if (code c =? 102)%N then keyword "false" (VBool false) (String c t)
          else if (code c =? 110)%N then keyword "null" VNull (String c t)
          else None
      end
  end
with parse_members (fuel : nat) (depth : N) (s : string) (acc : object)
  : option (value * string) :=
  match fuel with
  | O => None
  | S f =>
      match skip_ws s with
      | String q t =>
          if (code q =? 34)%N then
            match string_body t 0 with
            | None => None
            | Some (k, r) =>
                match skip_ws r with
                | String colon r2 =>
                    if (code colon =? 58)%N then
                      match parse_value f depth r2 with
                      | None => None
                      | Some (v, r3) =>
                          match skip_ws r3 with
                          | String e r4 =>
                              if (code e =? 44)%N
                              then parse_members f depth r4 (set acc k v)
                              else if (code e =? 125)%N
                              then Some (VObject (set acc k v), r4)
                              else None
                          | EmptyString => None
                          end
                      end
                    else None
                | EmptyString => None
                end
            end
          else None
      | EmptyString => None
      end
  end
with parse_items (fuel : nat) (depth : N) (s : string) (acc : list value)
  : option (value * string) :=
  match fuel with
  | O => None
  | S f =>
      match parse_value f depth s with
      | None => None
      | Some (v, r) =>
          match skip_ws r with
          | String e r2 =>
              if (code e =? 44)%N then parse_items f depth r2 (acc ++ [v])
              else if (code e =? 93)%N then Some (VArray (acc ++ [v]), r2)
              else None
          | EmptyString => None
          end
      end
  end.

(** [json.Unmarshal(data, &chunk)] for [var chunk map[string]any]: the
    text must be one value and white space; an object fills the map,
    [null] leaves it [nil] (which reads as empty), any other value is an
    [UnmarshalTypeError]. *)
Definition Unmarshal (data : string) : option object :=
  match parse_value (S (String.length data)) 0 data with
  | Some (v, rest) =>
      match skip_ws rest, v with
      | EmptyString, VObject m => Some m
      | EmptyString, VNull => Some []
      | _, _ => None
      end
  | None => None
  end.

End Json.

(** ** What the program takes from its libraries and from the network *)

(** A Go [(T, error)]: the value, or the message of a non-nil error. *)
Inductive result (A : Type) : Type :=
| Success (a : A)
| Failure (msg : string).
Arguments Success {A} a.
Arguments Failure {A} msg.

(** [fmt]'s [%d] for an [int]. *)
Definition fmt_d (n : Z) : string := NilZero.string_of_int (Z.to_int n).

(** [fmt]'s [%v] for a [[]string]: the elements between brackets, separated
    by one space. *)
Fixpoint fmt_words (l : list string) : string :=
  match l with
  | [] => EmptyString
  | [x] => x
  | x :: r => x +:+ " " +:+ fmt_words r
  end.
Definition fmt_v (l : list string) : string := "[" +:+ fmt_words l +:+ "]".

(** ** [pkg/ollama] *)

Module Ollama.

Import GoStrings.

Record ChatMessage : Type := {
  Role : string;
  Content : string;
  Images : list string;
}.

Record ChatRequest : Type := {
  ChatRequest_Model : string;
  Messages : list ChatMessage;
  Stream : bool;
}.

Record ModelDetails : Type := {
  ParentModel : string;
  Format : string;
  Family : string;
  Families : list string;
  ParameterSize : string;
  QuantizationLevel : string;
}.

Record Model : Type := {
  Name : string;
  Model_Model : string;
  ModifiedAt : string;
  Size : Z;
  Digest : string;
  Details : ModelDetails;
}.

Record ModelsResponse : Type := {
  Models : list Model;
}.

(** A [fasthttp] request as the program fills it in. *)
Record Request : Type := {
  Method : string;
  RequestURI : string;
  ContentType : string;
  Body : string;
}.

(** What [HTTPClient.DoTimeout] leaves behind: a non-nil error, or a
    response with its status code and body. *)
Inductive Response : Type :=
| Failed (err : string)
| Answered (StatusCode : Z) (body : string).

(** The libraries behind the client: [image.Decode] with the registered
    formats, [png.Encode], and [json.Marshal] / [json.Unmarshal] at the
    types the program uses them at. *)
Class Codecs : Type := {
  Image : Type;
  image_Decode : string -> result (Image * string);
  png_Encode : Image -> result string;
  json_Marshal : ChatRequest -> string;
  json_Unmarshal_models : string -> result ModelsResponse;
  json_Unmarshal_chunk : string -> option Json.object;
}.

(** [Client].  The HTTP client is the function from the request sent to
    what comes back; the timeout only bounds the waiting. *)
Record Client : Type := {
  Host : string;
  Client_Model : string;
  HTTPClient : Request -> Response;
}.

Record Result : Type := {
  URL : string;
  Match : bool;
  Err : option string;
}.

Section WithCodecs.

Context `{Codecs}.

(** The test of the loop in [CheckModelExists]. *)
Definition model_matches (name configured : string) : bool :=
  String.eqb name configured
  || (HasSuffix name ":latest"
      && String.eqb (TrimSuffix name ":latest") configured)
  || (HasSuffix configured ":latest"
      && String.eqb (TrimSuffix configured ":latest")
                    (TrimSuffix name ":latest")).

(** The loop over [modelsResp.Models]: [modelFound] and
    [availableModels] when it ends, by exhaustion or by [break]. *)
Fixpoint find_model (configured : string) (models : list Model)
         (availableModels : list string) : bool * list string :=
  match models with
  | [] => (false, availableModels)
  | model :: rest =>
      let availableModels := availableModels ++ [Name model] in
      if model_matches (Name model) configured
      then (true, availableModels)
      else find_model configured rest availableModels
  end.

(** The request of [CheckModelExists]. *)
Definition tags_request (o : Client) : Request :=
  {| Method := "GET"; RequestURI := Host o +:+ "/api/tags";
     ContentType := ""; Body := "" |}.

(** [CheckModelExists]: [None] is the nil error. *)
Definition CheckModelExists (o : Client) : option string :=
  match HTTPClient o (tags_request o) with
  | Failed err => Some ("failed to connect to Ollama API: " +:+ err)
  | Answered status body =>
      if negb (status =? 200)%Z
      then Some ("Ollama API returned status " +:+ fmt_d status)
      else
        match json_Unmarshal_models body with
        | Failure err => Some ("failed to parse models response: " +:+ err)
        | Success modelsResp =>
            let '(modelFound, availableModels) :=
              find_model (Client_Model o) (Models modelsResp) [] in
            if negb modelFound
            then Some ("model '" +:+ Client_Model o
                       +:+ "' not found. Available models: "
                       +:+ fmt_v availableModels)
            else None
        end
  end.

(** The request of [DownloadImageAsBase64]. *)
Definition image_request (url : string) : Request :=
  {| Method := "GET"; RequestURI := url; ContentType := ""; Body := "" |}.

(** [DownloadImageAsBase64] *)
Definition DownloadImageAsBase64 (o : Client) (url : string)
  : result string :=
  match HTTPClient o (image_request url) with
  | Failed err => Failure ("error fetching " +:+ url +:+ ": " +:+ err)
  | Answered status data =>
      if negb (status =? 200)%Z
      then Failure ("bad status for " +:+ url +:+ ": " +:+ fmt_d status)
      else
        match image_Decode data with
        | Failure err =>
            Failure ("error decoding image from " +:+ url +:+ ": " +:+ err)
        | Success (img, format) =>
            if String.eqb format "png"
            then Success (Base64.EncodeToString data)
            else
              match png_Encode img with
              | Failure err => Failure ("error encoding PNG: " +:+ err)
              | Success buf => Success (Base64.EncodeToString buf)
              end
        end
  end.

(** The body of the loop over the lines of the response, for a line
    that is neither blank nor malformed: the text to add to [fullText]
    and whether the loop breaks. *)
Definition chunk_content (chunk : Json.object) : string :=
  match Json.as_object (Json.get chunk "message") with
  | Some msg =>
      match Json.as_string (Json.get msg "content") with
      | Some content => content
      | None => EmptyString
      end
  | None => EmptyString
  end.

Definition chunk_done (chunk : Json.object) : bool :=
  match Json.as_bool (Json.get chunk "done") with
  | Some done => done
  | None => false
  end.

(** [for _, line := range lines { ... }], from any point of the
    iteration: [fullText] when the loop is left. *)
Fixpoint read_stream (lines : list string) (fullText : string) : string :=
  match lines with
  | [] => fullText
  | line :: rest =>
      let line := TrimSpace line in
      if String.eqb line "" then read_stream rest fullText
      else
        match json_Unmarshal_chunk line with
        | None => read_stream rest fullText
        | Some chunk =>
            let fullText := fullText +:+ chunk_content chunk in
            if chunk_done chunk then fullText
            else read_stream rest fullText
        end
  end.

Definition prompt : string :=
  "Compare these two favicons. Respond only with Yes if visually identical or same brand/logo, otherwise No.".

(** The request of [CompareFaviconsChatAPI]. *)
Definition chat_request (o : Client) (base64Base base64Target : string)
  : Request :=
  let reqBody :=
    {| ChatRequest_Model := Client_Model o;
       Messages := [ {| Role := "user"; Content := prompt;
                        Images := [base64Base; base64Target] |} ];
       Stream := true |} in
  {| Method := "POST"; RequestURI := Host o +:+ "/api/chat";
     ContentType := "application/json"; Body := json_Marshal reqBody |}.

(** [CompareFaviconsChatAPI]: the verdict and the error ([None] is
    nil). *)
Definition CompareFaviconsChatAPI (o : Client)
           (base64Base base64Target : string) : bool * option string :=
  match HTTPClient o (chat_request o base64Base base64Target) with
  | Failed err => (false, Some err)
  | Answered _ responseText =>
      let lines := Split responseText in
      let answer := read_stream lines EmptyString in
      (Contains answer "Yes", None)
  end.

End WithCodecs.

End Ollama.

(** ** [cmd/favlens]: the worker pool and the collection of results *)

Module Main.

Import GoStrings.
Import Ollama.

(** [args.Arguments] *)
Record Arguments : Type := {
  BaseURL : string;
  OllamaHost : string;
  FilePath : string;
  Model : string;
  Workers : Z;
  Debug : bool;
  Verbose : bool;
  Silent : bool;
  Output : string;
  TimeoutSeconds : Z;
  DelayMs : Z;
}.

Record Job : Type := { Job_URL : string }.

(** *** Sending the jobs *)

(** "Append /favicon.ico if the URL doesn't have an image extension or
    favicon.ico": the [if] of the loop of [main], and the URL after it. *)
Definition favicon_url (url : string) : string :=
  if negb (HasSuffix url ".ico") && negb (HasSuffix url ".png")
     && negb (HasSuffix url ".jpg") && negb (HasSuffix url ".jpeg")
     && negb (HasSuffix url ".gif") && negb (HasSuffix url ".svg")
     && negb (Contains url "favicon")
  then
    if HasSuffix url "/" then url +:+ "favicon.ico"
    else url +:+ "/favicon.ico"
  else url.

(** One turn of [for _, url := range lines]: the job sent, if any. *)
Definition job_of_line (url : string) : option Job :=
  let url := TrimSpace url in
  if String.eqb url "" then None
  else Some {| Job_URL := favicon_url url |}.

(** [lines := strings.Split(strings.TrimSpace(string(content)), "\n")] *)
Definition lines_of (content : string) : list string :=
  Split (TrimSpace content).

(** The whole loop: what has been sent on [jobs] when it is closed. *)
Fixpoint send_jobs (lines : list string) : list Job :=
  match lines with
  | [] => []
  | url :: rest =>
      match job_of_line url with
      | Some job => job :: send_jobs rest
      | None => send_jobs rest
      end
  end.

Definition dispatched (content : string) : list Job :=
  send_jobs (lines_of content).

(** *** One job in a worker *)

Section WithCodecs.

Context `{Codecs}.

(** The body of [for job := range jobs] in [worker]: the result sent.
    (The optional sleep before it changes no value.) *)
Definition process (o : Client) (baseIcon : string) (job : Job)
  : Result :=
  match DownloadImageAsBase64 o (Job_URL job) with
  | Failure err =>
      {| URL := Job_URL job; Match := false; Err := Some err |}
  | Success targetIcon =>
      let '(match_, err) := CompareFaviconsChatAPI o baseIcon targetIcon in
      {| URL := Job_URL job; Match := match_; Err := err |}
  end.

End WithCodecs.

(** *** Channels and goroutines *)

(** A buffered channel: its capacity, everything sent so far in order,
    how many of these were received, and whether it is closed.  The
    buffer holds the values sent and not yet received. *)
Record chan (A : Type) : Type := {
  cap : nat;
  sent : list A;
  taken : nat;
  closed : bool;
}.
Arguments cap {A} c.
Arguments sent {A} c.
Arguments taken {A} c.
Arguments closed {A} c.

Definition make {A : Type} (capacity : nat) : chan A :=
  {| cap := capacity; sent := []; taken := 0; closed := false |}.

(** [c <- x] can proceed: there is room in the buffer (and the channel is
    open, else the program panics). *)
Definition can_send {A : Type} (c : chan A) : bool :=
  negb (closed c) && (length (sent c) - taken c <? cap c)%nat.

Definition send {A : Type} (c : chan A) (x : A) : chan A :=
  {| cap := cap c; sent := sent c ++ [x]; taken := taken c;
     closed := closed c |}.

(** The value a receive gets, if the buffer is not empty. *)
Definition front {A : Type} (c : chan A) : option A :=
  sent c !! taken c.

Definition receive {A : Type} (c : chan A) : chan A :=
  {| cap := cap c; sent := sent c; taken := S (taken c);
     closed := closed c |}.

Definition close {A : Type} (c : chan A) : chan A :=
  {| cap := cap c; sent := sent c; taken := taken c; closed := true |}.

(** A [range] over the channel ends: closed and drained. *)
Definition drained {A : Type} (c : chan A) : bool :=
  closed c && (length (sent c) <=? taken c)%nat.

(** Where a worker goroutine stands. *)
Inductive worker_state : Type :=
| Ranging               (* at [for job := range jobs] *)
| Processing (job : Job) (* in the body, before [results <- ...] *)
| Returned.             (* left the loop; [wg.Done()] ran *)

(** Where [main] stands. *)
Inductive main_state : Type :=
| Sending (lines : list string) (jobCount : Z)
| Opening (jobCount : Z)       (* [jobs] closed, at "Prepare output file" *)
| Collecting (jobCount : Z)    (* ranging over [results] *)
| Completed (jobCount : Z).

Record pool : Type := {
  main_at : main_state;
  jobs : chan Job;
  results : chan Result;
  workers : list worker_state;
}.

(** The state after [main] has made the channels and started the
    workers: [for i := 0; i < args.Workers; i++]. *)
Definition start (lines : list string) (nworkers : Z) : pool :=
  {| main_at := Sending lines 0;
     jobs := make (length lines);
     results := make (length lines);
     workers := replicate (Z.to_nat nworkers) Ranging |}.

Definition all_returned (ws : list worker_state) : bool :=
  forallb (fun w => match w with Returned => true | _ => false end) ws.

(** The goroutine of [go func() { wg.Wait(); close(results) }] exists:
    [main] starts it after [close(jobs)], before it prepares the output
    file. *)
Definition waiting (m : main_state) : bool :=
  match m with
  | Sending _ _ => false
  | Opening _ | Collecting _ | Completed _ => true
  end.

Section Steps.

Context `{Codecs}.

Variable baseIcon : string.
Variable host model : string.

(** One step of one goroutine while the process runs.  The network
    answers as it likes: each job is processed with some HTTP client of
    its own.  [main_opens] is [main] getting past "Prepare output file":
    no file is asked for, or [os.Create] succeeds; the other outcome of
    [os.Create] ends the process and is [main_exits] of [move] below. *)
Inductive step : pool -> pool -> Prop :=
| main_skips url rest n s :
    main_at s = Sending (url :: rest) n ->
    job_of_line url = None ->
    step s {| main_at := Sending rest n; jobs := jobs s;
              results := results s; workers := workers s |}
| main_sends url rest n job s :
    main_at s = Sending (url :: rest) n ->
    job_of_line url = Some job ->
    can_send (jobs s) = true ->
    step s {| main_at := Sending rest (n + 1);
              jobs := send (jobs s) job;
              results := results s; workers := workers s |}
| main_closes n s :
    main_at s = Sending [] n ->
    step s {| main_at := Opening n; jobs := close (jobs s);
              results := results s; workers := workers s |}
| main_opens n s :
    main_at s = Opening n ->
    step s {| main_at := Collecting n; jobs := jobs s;
              results := results s; workers := workers s |}
| worker_takes i job s :
    workers s !! i = Some Ranging ->
    front (jobs s) = Some job ->
    step s {| main_at := main_at s; jobs := receive (jobs s);
              results := results s;
              workers := <[i := Processing job]> (workers s) |}
| worker_sends i job http s :
    workers s !! i = Some (Processing job) ->
    can_send (results s) = true ->
    step s {| main_at := main_at s; jobs := jobs s;
              results :=
                send (results s)
                     (process {| Host := host; Client_Model := model;
                                 HTTPClient := http |} baseIcon job);
              workers := <[i := Ranging]> (workers s) |}
| worker_returns i s :
    workers s !! i = Some Ranging ->
    drained (jobs s) = true ->
    step s {| main_at := main_at s; jobs := jobs s;
              results := results s;
              workers := <[i := Returned]> (workers s) |}
| waiter_closes s :
    waiting (main_at s) = true ->
    all_returned (workers s) = true ->
    closed (results s) = false ->
    step s {| main_at := main_at s; jobs := jobs s;
              results := close (results s); workers := workers s |}
| main_receives n r s :
    main_at s = Collecting n ->
    front (results s) = Some r ->
    step s {| main_at := main_at s; jobs := jobs s;
              results := receive (results s); workers := workers s |}
| main_completes n s :
    main_at s = Collecting n ->
    drained (results s) = true ->
    step s {| main_at := Completed n; jobs := jobs s;
              results := results s; workers := workers s |}.

(** Any number of steps. *)
Inductive steps : pool -> pool -> Prop :=
| steps_refl s : steps s s
| steps_step s1 s2 s3 : steps s1 s2 -> step s2 s3 -> steps s1 s3.

(** The process: its goroutines run, or it has exited with a status,
    leaving the channels and the workers as they were. *)
Inductive program : Type :=
| Running (s : pool)
| Exited (status : Z) (s : pool).

Variable args : Arguments.

(** One move of the process.  [main_exits] is the failure branch of
    [outFile, err = os.Create(args.Output)], taken only under
    [args.Output != ""]: [os.Exit(1)] or [gologger.Fatal()] end the
    process with status 1, whatever the workers are doing.  Whether the
    file can be created is up to the system. *)
Inductive move : program -> program -> Prop :=
| goroutine_steps s s' :
    step s s' -> move (Running s) (Running s')
| main_exits n s :
    main_at s = Opening n ->
    Output args <> EmptyString ->
    move (Running s) (Exited 1 s).

Inductive moves : program -> program -> Prop :=
| moves_refl p : moves p p
| moves_move p1 p2 p3 : moves p1 p2 -> move p2 p3 -> moves p1 p3.

End Steps.

(** *** Collecting the results *)

(** The files of the machine, by path. *)
Definition files : Type := string -> option string.

(** [os.Create(name)]: the file is created, or truncated if it exists.
    [permitted] says whether the system lets the program do so. *)
Definition os_Create (permitted : bool) (fs : files) (name : string)
  : result files :=
  if permitted
  then Success (fun p => if String.eqb p name then Some EmptyString
                         else fs p)
  else Failure "open failed".

(** [fmt.Fprintln(outFile, url)] for a file opened by [os.Create]: the
    line goes after what was written so far. *)
Definition Fprintln (fs : files) (name : string) (text : string) : files :=
  fun p =>
    if String.eqb p name
    then Some (match fs p with Some old => old | None => EmptyString end
               +:+ text +:+ String LF EmptyString)
    else fs p.

(** What the loop over [results] has changed so far. *)
Record collected : Type := {
  matchCount : Z;
  errorCount : Z;
  stdout : string;
  disk : files;
}.

(** One turn of [for result := range results]; [outFile] is [None] for
    the nil file. *)
Definition collect_one (outFile : option string) (c : collected)
           (result : Result) : collected :=
  match Err result with
  | Some _ =>
      {| matchCount := matchCount c; errorCount := errorCount c + 1;
         stdout := stdout c; disk := disk c |}
  | None =>
      if Match result then
        {| matchCount := matchCount c + 1; errorCount := errorCount c;
           stdout := stdout c +:+ URL result +:+ String LF EmptyString;
           disk := match outFile with
                   | Some name => Fprintln (disk c) name (URL result)
                   | None => disk c
                   end |}
      else c
  end.

Definition collect (outFile : option string) (c : collected)
           (arrived : list Result) : collected :=
  fold_left (collect_one outFile) arrived c.

(** From "Prepare output file if specified" to the end of [main], for
    the results in their order of arrival: [None] when the output file
    cannot be created and the program exits. *)
Definition report (args : Arguments) (permitted : bool) (fs : files)
           (out : string) (arrived : list Result) : option collected :=
  let start := {| matchCount := 0; errorCount := 0; stdout := out;
                  disk := fs |} in
  if negb (String.eqb (Output args) "") then
    match os_Create permitted fs (Output args) with
    | Failure _ => None
    | Success fs' =>
        Some (collect (Some (Output args))
                      {| matchCount := 0; errorCount := 0; stdout := out;
                         disk := fs' |} arrived)
    end
  else Some (collect None start arrived).

End Main.

(** ** [pkg/arguments] and the start of [main] *)

Module Startup.

Import GoStrings.
Import Ollama.
Import Main.

(** [(a *Arguments) IsValid()] *)
Definition IsValid (a : Arguments) : bool :=
  negb (String.eqb (BaseURL a) "")
  && negb (String.eqb (FilePath a) "")
  && negb (String.eqb (Model a) "").

(** [(a *Arguments) Parse()] *)
Definition Parse (a : Arguments) : result Arguments :=
  if negb (IsValid a) then Failure "invalid arguments"
  else Success a.



Section WithCodecs.

Context `{Codecs}.


End WithCodecs.

End Startup.

(** ** Codecs to run the model with

    The theorems below hold for all codecs.  To evaluate the functions on
    examples, here is one choice: images are told apart by their first
    bytes and their pixels are the file itself, and JSON goes through the
    decoder of [Json]. *)

Module Reference.

Import GoStrings.
Import Ollama.

Fixpoint bytes (l : list N) : string :=
  match l with
  | [] => EmptyString
  | n :: r => String (Json.byte n) (bytes r)
  end.

Definition png_signature : string := bytes [137; 80; 78; 71; 13; 10; 26; 10]%N.

Definition sniff (data : string) : option string :=
  if HasPrefix data png_signature then Some "png"
  else if HasPrefix data "GIF8" then Some "gif"
  else if HasPrefix data (bytes [255; 216; 255]%N) then Some "jpeg"
  else if HasPrefix data "BM" then Some "bmp"
  else if HasPrefix data (bytes [0; 0; 1; 0]%N) then Some "ico"
  else if HasPrefix data "RIFF" then Some "webp"
  else None.

Definition decode_image (data : string) : result (string * string) :=
  match sniff data with
  | Some format => Success (data, format)
  | None => Failure "image: unknown format"
  end.

Definition encode_png (img : string) : result string :=
  Success (png_signature +:+ img).

(** A JSON string literal; only the quote and the backslash are
    escaped. *)
Fixpoint escaped (s : string) : string :=
  match s with
  | EmptyString => EmptyString
  | String c t =>
      if char_eqb c DQ || char_eqb c "\"%char
      then String "\"%char (String c (escaped t))
      else String c (escaped t)
  end.

Definition quoted (s : string) : string :=
  String DQ (escaped s +:+ String DQ EmptyString).

Fixpoint commas (l : list string) : string :=
  match l with
  | [] => EmptyString
  | [x] => x
  | x :: r => x +:+ "," +:+ commas r
  end.

Definition field (name value : string) : string :=
  quoted name +:+ ":" +:+ value.

Definition marshal_message (m : ChatMessage) : string :=
  "{" +:+ commas
    ([field "role" (quoted (Role m)); field "content" (quoted (Content m))]
     ++ match Images m with
        | [] => []
        | imgs => [field "images" ("[" +:+ commas (map quoted imgs) +:+ "]")]
        end)
  +:+ "}".

Definition marshal (r : ChatRequest) : string :=
  "{" +:+ commas
    [field "model" (quoted (ChatRequest_Model r));
     field "messages"
           ("[" +:+ commas (map marshal_message (Messages r)) +:+ "]");
     field "stream" (if Stream r then "true" else "false")]
  +:+ "}".

Definition no_details : ModelDetails :=
  {| ParentModel := ""; Format := ""; Family := ""; Families := [];
     ParameterSize := ""; QuantizationLevel := "" |}.

Definition model_of (v : Json.value) : option Model :=
  match v with
  | Json.VObject m =>
      match Json.get m "name" with
      | Some (Json.VString n) =>
          Some {| Name := n; Model_Model := ""; ModifiedAt := ""; Size := 0;
                  Digest := ""; Details := no_details |}
      | None =>
          Some {| Name := ""; Model_Model := ""; ModifiedAt := ""; Size := 0;
                  Digest := ""; Details := no_details |}
      | Some _ => None
      end
  | _ => None
  end.

Fixpoint models_of (l : list Json.value) : option (list Model) :=
  match l with
  | [] => Some []
  | v :: r =>
      match model_of v, models_of r with
      | Some m, Some ms => Some (m :: ms)
      | _, _ => None
      end
  end.

Definition unmarshal_models (data : string) : result ModelsResponse :=
  match Json.Unmarshal data with
  | None => Failure "invalid character"
  | Some m =>
      match Json.get m "models" with
      | None | Some Json.VNull => Success {| Models := [] |}
      | Some (Json.VArray items) =>
          match models_of items with
          | Some ms => Success {| Models := ms |}
          | None => Failure "cannot unmarshal into Go struct field"
          end
      | Some _ => Failure "cannot unmarshal into Go struct field"
      end
  end.

#[global] Instance codecs : Codecs := {|
  Image := string;
  image_Decode := decode_image;
  png_Encode := encode_png;
  json_Marshal := marshal;
  json_Unmarshal_models := unmarshal_models;
  json_Unmarshal_chunk := Json.Unmarshal;
|}.

(** A client whose network answers every request with the same
    response. *)
Definition always (answer : Response) (model : string) : Client :=
  {| Host := "http://localhost:11434"; Client_Model := model;
     HTTPClient := fun _ => answer |}.

End Reference.

(** ** The specification's wording, where it is compared with the code *)

Module Spec.

Import GoStrings.

(** "matching exactly or after stripping a conventional latest tag suffix
    from either side": the two names are equal, or one of them without
    its [":latest"] is the other. *)
Definition name_matches (name configured : string) : Prop :=
  name = configured
  \/ TrimSuffix name ":latest" = configured
  \/ name = TrimSuffix configured ":latest".

(** "Created by splitting input text on newlines, trimming whitespace,
    skipping blank lines": the candidate URLs of an input text. *)
Definition candidate_urls (content : string) : list string :=
  List.filter (fun url => negb (String.eqb url ""))
              (map TrimSpace (Split content)).

(** The image-file suffixes, as the program lists them. *)
Definition image_suffixes : list string :=
  [".ico"; ".png"; ".jpg"; ".jpeg"; ".gif"; ".svg"].

(** "A URL lacking an image-file suffix and not already containing the
    substring favicon has /favicon.ico (or favicon.ico if already ending
    in /) appended." *)
Definition with_favicon (url : string) : string :=
  if negb (existsb (HasSuffix url) image_suffixes)
     && negb (Contains url "favicon")
  then if HasSuffix url "/" then url +:+ "favicon.ico"
       else url +:+ "/favicon.ico"
  else url.

Definition jobs (content : string) : list Main.Job :=
  map (fun url => {| Main.Job_URL := with_favicon url |})
      (candidate_urls content).

(** "matched URLs ... one URL per line, no other formatting": the text of
    the matches among the results, in their order. *)
Definition is_match (r : Ollama.Result) : bool :=
  match Ollama.Err r with
  | Some _ => false
  | None => Ollama.Match r
  end.

(** "every JobResult is either an error, a match, or a non-matching
    success" *)
Definition is_error (r : Ollama.Result) : bool :=
  match Ollama.Err r with Some _ => true | None => false end.

Definition is_nonmatch (r : Ollama.Result) : bool :=
  match Ollama.Err r with
  | Some _ => false
  | None => negb (Ollama.Match r)
  end.

Definition count (f : Ollama.Result -> bool) (rs : list Ollama.Result) : Z :=
  Z.of_nat (length (List.filter f rs)).

Fixpoint url_lines (rs : list Ollama.Result) : string :=
  match rs with
  | [] => ""
  | r :: rest =>
      if is_match r
      then Ollama.URL r +:+ String LF (url_lines rest)
      else url_lines rest
  end.

Section Stream.

Context `{Ollama.Codecs}.

(** Steps 1 to 3 of the comparison client: "split the raw response
    body on line boundaries", "skip blank lines", "parse each non-blank
    line independently ...; a line that fails to parse is skipped". *)
Definition records (lines : list string) : list Json.object :=
  omap Ollama.json_Unmarshal_chunk
       (List.filter (fun line => negb (String.eqb line ""))
                    (map TrimSpace lines)).

(** Step 5: "stop consuming further lines as soon as a record signals
    completion": the records up to and including the first one whose
    [done] is true. *)
Fixpoint upto_done (rs : list Json.object) : list Json.object :=
  match rs with
  | [] => []
  | r :: rest =>
      if Ollama.chunk_done r then [r] else r :: upto_done rest
  end.

(** Step 4: "extract and append any partial-answer text field present
    in a record to an accumulator". *)
Definition text_of (rs : list Json.object) : string :=
  foldr (fun r acc => Ollama.chunk_content r +:+ acc) "" rs.

Definition answer (body : string) : string :=
  text_of (upto_done (records (Split body))).

End Stream.

End Spec.

(** ** Notions used in the proofs *)

Import GoStrings.
Import Ollama.
Import Main.

(** A continuation byte of UTF-8. *)
Definition cont (b : ascii) : bool :=
  ((128 <=? nat_of_ascii b) && (nat_of_ascii b <? 192))%nat.

(** The bytes of one white-space rune. *)
Inductive space_rune : list ascii -> Prop :=
| space_rune1 a : space1 a = true -> space_rune [a]
| space_rune2 a b :
    space1 a = false -> space2 a b = true -> space_rune [a; b]
| space_rune3 a b c :
    space1 a = false -> space2 a b = false -> space3 a b c = true ->
    space_rune [a; b; c].

Ltac bools :=
  repeat match goal with
         | H : _ && _ = true |- _ => apply andb_true_iff in H as [? ?]
         | H : _ || _ = true |- _ => apply orb_true_iff in H as [? | ?]
         | H : (_ =? _)%nat = true |- _ => apply Nat.eqb_eq in H
         | H : (_ <=? _)%nat = true |- _ => apply Nat.leb_le in H
         | H : (_ <? _)%nat = true |- _ => apply Nat.ltb_lt in H
         end.

Ltac bool_goal :=
  repeat match goal with
         | |- _ /\ _ => split
         | |- _ && _ = true => apply andb_true_iff
         | |- _ && _ = false => apply andb_false_iff
         | |- _ || _ = false => apply orb_false_iff
         | |- (_ =? _)%nat = true => apply Nat.eqb_eq
         | |- (_ =? _)%nat = false => apply Nat.eqb_neq
         | |- (_ <=? _)%nat = true => apply Nat.leb_le
         | |- (_ <=? _)%nat = false => apply Nat.leb_gt
         | |- (_ <? _)%nat = true => apply Nat.ltb_lt
         | |- (_ <? _)%nat = false => apply Nat.ltb_ge
         end.

(** [Split] on lists of bytes. *)
Fixpoint split_bytes (s : list ascii) : list (list ascii) :=
  match s with
  | [] => [[]]
  | c :: t =>
      if char_eqb c LF then [] :: split_bytes t
      else match split_bytes t with
           | h :: r => (c :: h) :: r
           | [] => [[c]]
           end
  end.

Definition trim_bytes (x : list ascii) : list ascii := TrimRight (TrimLeft x).

Definition nonempty (l : list ascii) : bool :=
  match l with [] => false | _ :: _ => true end.

(** The trimmed, non-blank lines of a text. *)
Definition lines_bytes (c : list ascii) : list (list ascii) :=
  List.filter nonempty (map trim_bytes (split_bytes c)).

Definition job_of_bytes (l : list ascii) : Job :=
  {| Job_URL := favicon_url (string_of_list_ascii l) |}.

(** A line is a final record when, trimmed, it decodes to a chunk whose
    [done] is true. *)
Definition final_record `{Ollama.Codecs} (line : string) : Prop :=
  TrimSpace line <> ""
  /\ exists chunk, json_Unmarshal_chunk (TrimSpace line) = Some chunk
                   /\ chunk_done chunk = true.

(** The response of the example, up to its final record. *)
Definition example_stream : string :=
  Join [unq "{'message':{'content':'Ye'}}"; "NOT-JSON";
        unq "{'message':{'content':'s'},'done':true}"].

Definition line_of (r : Result) : string :=
  if Spec.is_match r then URL r +:+ String LF "" else "".

Definition example_args (output : string) : Arguments :=
  {| BaseURL := "https://ref.com/favicon.ico";
     OllamaHost := "http://localhost:11434"; FilePath := "hosts.txt";
     Model := "gemma3:4b"; Workers := 5; Debug := false; Verbose := false;
     Silent := false; Output := output; TimeoutSeconds := 30; DelayMs := 0 |}.

Definition example_results : list Result :=
  [ {| URL := "a.com/favicon.ico"; Match := true; Err := None |};
    {| URL := "b.com/favicon.ico"; Match := false; Err := None |};
    {| URL := "c.com/logo.png"; Match := false;
       Err := Some "bad status for c.com/logo.png: 404" |};
    {| URL := "d.com/favicon.ico"; Match := true; Err := None |} ].

Definition job_in (w : worker_state) : option Job :=
  match w with Processing job => Some job | _ => None end.

(** The jobs taken from the channel whose result is not sent yet. *)
Definition busy (ws : list worker_state) : list Job := omap job_in ws.

(** What holds of every state the pool can be in. *)
Record invariant (lines0 : list string) (nworkers : Z) (s : pool) : Prop := {
  inv_cap_jobs : cap (jobs s) = length lines0;
  inv_cap_results : cap (results s) = length lines0;
  inv_sent_jobs : length (sent (jobs s)) <= length lines0;
  inv_main :
    match main_at s with
    | Sending rest n =>
        closed (jobs s) = false
        /\ closed (results s) = false
        /\ send_jobs lines0 = sent (jobs s) ++ send_jobs rest
        /\ length (sent (jobs s)) + length rest <= length lines0
        /\ n = Z.of_nat (length (sent (jobs s)))
    | Opening n | Collecting n =>
        closed (jobs s) = true
        /\ sent (jobs s) = send_jobs lines0
        /\ n = Z.of_nat (length (sent (jobs s)))
    | Completed n =>
        closed (jobs s) = true
        /\ sent (jobs s) = send_jobs lines0
        /\ n = Z.of_nat (length (sent (jobs s)))
        /\ drained (results s) = true
    end;
  inv_taken_jobs : taken (jobs s) <= length (sent (jobs s));
  inv_taken_results : taken (results s) <= length (sent (results s));
  inv_urls :
    map URL (sent (results s)) ++ map Job_URL (busy (workers s))
    ≡ₚ map Job_URL (take (taken (jobs s)) (sent (jobs s)));
  inv_returned : Returned ∈ workers s -> drained (jobs s) = true;
  inv_closed :
    closed (results s) = true -> all_returned (workers s) = true;
  inv_workers : length (workers s) = Z.to_nat nworkers;
}.

(** The weight of a state: it goes down with every step. *)
Definition weight_main (m : main_state) : nat :=
  match m with
  | Sending rest _ => 4 * length rest + 3
  | Opening _ => 2
  | Collecting _ => 1
  | Completed _ => 0
  end.

Definition weight_worker (w : worker_state) : nat :=
  match w with
  | Ranging => 1
  | Processing _ => 3
  | Returned => 0
  end.

Definition buffered {A : Type} (c : chan A) : nat :=
  length (sent c) - taken c.

Definition weight (s : pool) : nat :=
  weight_main (main_at s)
  + 3 * buffered (jobs s)
  + sum_list (map weight_worker (workers s))
  + buffered (results s)
  + (if closed (results s) then 0 else 1).

Definition example_waiting : pool :=
  {| main_at := Sending [] 1;
     jobs := receive (send (make 1) {| Job_URL := "c.com/logo.png" |});
     results := make 1;
     workers := [Processing {| Job_URL := "c.com/logo.png" |}] |}.

(** With one worker: the results sent, then the job being processed, are
    the jobs taken, in their order. *)
Definition in_order (s : pool) : Prop :=
  map URL (sent (results s)) ++ map Job_URL (busy (workers s))
  = map Job_URL (take (taken (jobs s)) (sent (jobs s))).

(** Without workers: nothing is taken and nothing is sent back. *)
Definition untouched (s : pool) : Prop :=
  workers s = [] /\ sent (results s) = [] /\ taken (jobs s) = 0.

(** A run on one blank line with one worker, when the result channel has
    been closed. *)
Definition example_closed : pool :=
  {| main_at := Collecting 0;
     jobs := close (make 1);
     results := close (make 1);
     workers := [Returned] |}.

(** The weight of the process: it goes down with every move. *)
Definition program_weight (p : program) : nat :=
  match p with
  | Running s => S (weight s)
  | Exited _ _ => 0
  end.

(** A run asked to save its matches where no file can be created. *)
Definition example_unwritable : Arguments :=
  {| BaseURL := "https://example.com/favicon.ico";
     OllamaHost := "http://localhost:11434";
     FilePath := "urls.txt";
     Model := "gemma3:4b";
     Workers := 1;
     Debug := false; Verbose := false; Silent := false;
     Output := "/missing/matches.txt";
     TimeoutSeconds := 30;
     DelayMs := 0 |}.

(** The pool on the one line [a.com] with one worker, when [main] has
    sent the job and closed the job channel and no worker has run yet. *)
Definition example_dispatched : pool :=
  {| main_at := Opening 1;
     jobs := close (send (make 1) {| Job_URL := "a.com/favicon.ico" |});
     results := make 1;
     workers := [Ranging] |}.

(** * Properties *)

(** ** Strings *)

Lemma sapp_cons (a : ascii) (s t : string) :
  String a s +:+ t = String a (s +:+ t).
Proof. reflexivity. Qed.

Lemma sapp_nil_l (s : string) : "" +:+ s = s.
Proof. reflexivity. Qed.

Lemma sapp_nil_r (s : string) : s +:+ "" = s.
Proof. induction s as [|a s IH]; [reflexivity|]. rewrite sapp_cons, IH. reflexivity. Qed.

Lemma sapp_assoc (s t u : string) : (s +:+ t) +:+ u = s +:+ t +:+ u.
Proof.
  induction s as [|a s IH]; [reflexivity|].
  rewrite !sapp_cons, IH. reflexivity.
Qed.

Lemma slength_app (s t : string) :
  String.length (s +:+ t) = String.length s + String.length t.
Proof.
  induction s as [|a s IH]; [reflexivity|].
  rewrite sapp_cons. simpl. rewrite IH. reflexivity.
Qed.

Lemma char_eqb_eq (a b : ascii) : char_eqb a b = true <-> a = b.
Proof. apply Ascii.eqb_eq. Qed.

Lemma HasPrefix_spec (s p : string) :
  HasPrefix s p = true <-> exists t, s = p +:+ t.
Proof.
  revert s. induction p as [|b p IH]; intros s; simpl.
  - split; [intros _; exists s; reflexivity | reflexivity].
  - destruct s as [|a s].
    + split; [discriminate | intros [t Ht]; discriminate].
    + rewrite andb_true_iff, char_eqb_eq, IH. split.
      * intros [-> [t ->]]. exists t. reflexivity.
      * intros [t Ht]. rewrite sapp_cons in Ht. injection Ht as -> ->. eauto.
Qed.

Lemma Contains_spec (s sub : string) :
  Contains s sub = true <-> exists pre post, s = pre +:+ sub +:+ post.
Proof.
  induction s as [|a s IH].
  - simpl. rewrite orb_false_r, HasPrefix_spec. split.
    + intros [t Ht]. exists "", t. exact Ht.
    + intros [pre [post Hs]]. destruct pre; [eauto | discriminate].
  - cbn [Contains]. rewrite orb_true_iff, HasPrefix_spec, IH. split.
    + intros [[t Ht] | [pre [post Hs]]].
      * exists "", t. exact Ht.
      * exists (String a pre), post. rewrite sapp_cons, Hs. reflexivity.
    + intros [[|b pre] [post Hs]].
      * left. eauto.
      * right. rewrite sapp_cons in Hs. injection Hs as -> ->. eauto.
Qed.

Lemma substring_suffix (pre suf : string) :
  substring (String.length pre) (String.length suf) (pre +:+ suf) = suf.
Proof.
  induction pre as [|a pre IH]; simpl.
  - rewrite sapp_nil_l. induction suf as [|b suf IH]; simpl; [reflexivity|].
    rewrite IH. reflexivity.
  - exact IH.
Qed.

Lemma substring_prefix (pre suf : string) :
  substring 0 (String.length pre) (pre +:+ suf) = pre.
Proof.
  induction pre as [|a pre IH]; simpl.
  - destruct (_ +:+ _); reflexivity.
  - rewrite IH. reflexivity.
Qed.

Lemma substring_split (n : nat) (s : string) :
  n <= String.length s ->
  s = substring 0 n s +:+ substring n (String.length s - n) s.
Proof.
  revert s. induction n as [|n IH]; intros s Hn.
  - rewrite Nat.sub_0_r. simpl. destruct s as [|a s]; [reflexivity|].
    rewrite sapp_nil_l. simpl. f_equal.
    clear. induction s as [|b s IH]; simpl; [reflexivity|].
    rewrite <- IH. reflexivity.
  - destruct s as [|a s]; simpl in *; [lia|].
    rewrite sapp_cons. f_equal. apply IH. lia.
Qed.

Lemma HasSuffix_spec (s suf : string) :
  HasSuffix s suf = true <-> exists pre, s = pre +:+ suf.
Proof.
  unfold HasSuffix. rewrite andb_true_iff, Nat.leb_le, String.eqb_eq. split.
  - intros [Hlen Hsub].
    exists (substring 0 (String.length s - String.length suf) s).
    pose proof (substring_split (String.length s - String.length suf) s) as E.
    replace (String.length s - (String.length s - String.length suf))
      with (String.length suf) in E by lia.
    rewrite Hsub in E. apply E. lia.
  - intros [pre ->]. rewrite slength_app. split; [lia|].
    replace (String.length pre + String.length suf - String.length suf)
      with (String.length pre) by lia.
    apply substring_suffix.
Qed.

Lemma HasSuffix_app (pre suf : string) : HasSuffix (pre +:+ suf) suf = true.
Proof. apply HasSuffix_spec. eauto. Qed.

Lemma TrimSuffix_app (pre suf : string) : TrimSuffix (pre +:+ suf) suf = pre.
Proof.
  unfold TrimSuffix. rewrite HasSuffix_app, slength_app.
  replace (String.length pre + String.length suf - String.length suf)
    with (String.length pre) by lia.
  apply substring_prefix.
Qed.

Lemma TrimSuffix_other (s suf : string) :
  HasSuffix s suf = false -> TrimSuffix s suf = s.
Proof. unfold TrimSuffix. intros ->. reflexivity. Qed.

(** ** The verdict of a comparison *)

Section Compare.

Context `{Codecs}.

(** What [CompareFaviconsChatAPI] returns once the request was answered:
    the status is not looked at, the error is nil. *)
Lemma compare_answered (o : Client) (a b : string) (status : Z)
      (body : string) :
  HTTPClient o (chat_request o a b) = Answered status body ->
  CompareFaviconsChatAPI o a b
  = (Contains (read_stream (Split body) "") "Yes", None).
Proof. unfold CompareFaviconsChatAPI. intros ->. reflexivity. Qed.

End Compare.

(** C3.  Once the response has been reassembled into a text, the verdict is
    a match exactly when the text has ["Yes"] somewhere in it, letter case
    included; so a text without it (only ["No"], or nothing) is not a
    match. *)
Theorem verdict_iff_contains_Yes `{Codecs} (o : Client) (a b : string)
        (status : Z) (body : string) :
  HTTPClient o (chat_request o a b) = Answered status body ->
  let answer := read_stream (Split body) "" in
  (fst (CompareFaviconsChatAPI o a b) = true
   <-> exists pre post, answer = pre +:+ "Yes" +:+ post)
  /\ ((forall pre post, answer <> pre +:+ "Yes" +:+ post) ->
      fst (CompareFaviconsChatAPI o a b) = false)
  /\ (answer = "No" \/ answer = "" \/ answer = "yes" \/ answer = "YES" ->
      fst (CompareFaviconsChatAPI o a b) = false).
Proof.
  intros Hresp answer.
  rewrite (compare_answered _ _ _ _ _ Hresp). cbn [fst]. fold answer.
  split; [apply Contains_spec|]. split.
  - intros Hno. destruct (Contains answer "Yes") eqn:E; [|reflexivity].
    apply Contains_spec in E as [pre [post E]]. destruct (Hno _ _ E).
  - intros [-> | [-> | [-> | ->]]]; reflexivity.
Qed.

Lemma verdict_iff_contains_Yes_witness :
  let o := Reference.always
             (Answered 200 (unq "{'message':{'content':'Yes.'},'done':true}"))
             "gemma3:4b" in
  fst (CompareFaviconsChatAPI o "QQ==" "Qg==") = true
  <-> exists pre post,
      read_stream (Split (unq "{'message':{'content':'Yes.'},'done':true}")) ""
      = pre +:+ "Yes" +:+ post.
Proof.
  intros o.
  exact (proj1 (verdict_iff_contains_Yes o "QQ==" "Qg==" 200 _ eq_refl)).
Defined.

(** ** The model-availability check *)

Lemma model_matches_spec (name configured : string) :
  model_matches name configured = true
  <-> name = configured
      \/ name = configured +:+ ":latest"
      \/ (configured = name +:+ ":latest"
          /\ HasSuffix name ":latest" = false).
Proof.
  unfold model_matches.
  rewrite !orb_true_iff, !andb_true_iff, !String.eqb_eq, !HasSuffix_spec.
  split.
  - intros [[E | [[pre ->] E]] | [[pre ->] E]].
    + left. exact E.
    + right. left. rewrite TrimSuffix_app in E. subst. reflexivity.
    + rewrite TrimSuffix_app in E.
      destruct (HasSuffix name ":latest") eqn:S.
      * apply HasSuffix_spec in S as [q ->]. rewrite TrimSuffix_app in E.
        left. subst. reflexivity.
      * rewrite (TrimSuffix_other _ _ S) in E. right. right. subst.
        split; reflexivity.
  - intros [-> | [-> | [-> S]]].
    + left. left. reflexivity.
    + left. right. split; [eauto | apply TrimSuffix_app].
    + right. split; [eauto|].
      rewrite TrimSuffix_app, (TrimSuffix_other _ _ S). reflexivity.
Qed.

Lemma find_model_spec (configured : string) (models : list Ollama.Model)
      (acc : list string) :
  fst (find_model configured models acc) = true
  <-> exists m, m ∈ models /\ model_matches (Name m) configured = true.
Proof.
  revert acc. induction models as [|m rest IH]; intros acc; simpl.
  - split; [discriminate | intros [m [Hm _]]; inversion Hm].
  - destruct (model_matches (Name m) configured) eqn:E; simpl.
    + split; [intros _; exists m; split; [left | exact E] | reflexivity].
    + rewrite IH. split.
      * intros [m' [Hin Hm']]. exists m'. split; [right; exact Hin | exact Hm'].
      * intros [m' [Hin Hm']]. inversion Hin; subst; [congruence | eauto].
Qed.

Lemma check_answered `{Codecs} (o : Client) (body : string)
      (resp : ModelsResponse) :
  HTTPClient o (tags_request o) = Answered 200 body ->
  json_Unmarshal_models body = Success resp ->
  (CheckModelExists o = None
   <-> fst (find_model (Client_Model o) (Models resp) []) = true).
Proof.
  intros Hresp Hjson. unfold CheckModelExists. rewrite Hresp, Hjson. simpl.
  destruct (find_model _ _ _) as [[|] names]; simpl; split;
    congruence.
Qed.

(** C4, as the code has it.  With the listing fetched and decoded, the
    check succeeds exactly when some listed name is the configured name, or
    is the configured name followed by [":latest"], or is the configured
    name without its final [":latest"] and does not itself end in
    [":latest"].  So ["gemma3:4b"] is found under the names
    ["gemma3:4b:latest"] and ["gemma3:4b"], and ["gemma3:9b"] under
    neither. *)
Theorem check_succeeds_iff `{Codecs} (o : Client) (body : string)
        (resp : ModelsResponse) :
  HTTPClient o (tags_request o) = Answered 200 body ->
  json_Unmarshal_models body = Success resp ->
  (CheckModelExists o = None
   <-> exists m, m ∈ Models resp
       /\ (Name m = Client_Model o
           \/ Name m = Client_Model o +:+ ":latest"
           \/ (Client_Model o = Name m +:+ ":latest"
               /\ HasSuffix (Name m) ":latest" = false)))
  /\ model_matches "gemma3:4b:latest" "gemma3:4b" = true
  /\ model_matches "gemma3:4b" "gemma3:4b" = true
  /\ model_matches "gemma3:4b:latest" "gemma3:9b" = false
  /\ model_matches "gemma3:4b" "gemma3:9b" = false.
Proof.
  intros Hresp Hjson. split; [|repeat split; reflexivity].
  rewrite (check_answered o body resp Hresp Hjson), find_model_spec.
  split; intros [m [Hin Hm]]; exists m; (split; [exact Hin|]);
    apply model_matches_spec; exact Hm.
Qed.

Lemma check_succeeds_iff_witness :
  let o := Reference.always
             (Answered 200 (unq "{'models':[{'name':'gemma3:4b:latest'}]}"))
             "gemma3:4b" in
  CheckModelExists o = None.
Proof.
  intros o.
  destruct (check_succeeds_iff o
              (unq "{'models':[{'name':'gemma3:4b:latest'}]}")
              {| Models := [ {| Name := "gemma3:4b:latest"; Model_Model := "";
                                ModifiedAt := ""; Size := 0; Digest := "";
                                Details := Reference.no_details |} ] |})
    as [Hiff _]; [vm_compute; reflexivity | vm_compute; reflexivity |].
  apply Hiff. eexists. split; [left|]. right. left. reflexivity.
Defined.

(** C4, as the specification words it, fails: the configured name
    ["foo:latest:latest"] without its final [":latest"] is the listed name
    ["foo:latest"], and the check reports the model as missing. *)
Lemma check_rejects_stripped_configured :
  let listed := {| Name := "foo:latest"; Model_Model := ""; ModifiedAt := "";
                   Size := 0; Digest := ""; Details := Reference.no_details |} in
  let o := Reference.always
             (Answered 200 (unq "{'models':[{'name':'foo:latest'}]}"))
             "foo:latest:latest" in
  json_Unmarshal_models (unq "{'models':[{'name':'foo:latest'}]}")
  = Success {| Models := [listed] |}
  /\ Spec.name_matches (Name listed) (Client_Model o)
  /\ CheckModelExists o
     = Some "model 'foo:latest:latest' not found. Available models: [foo:latest]".
Proof.
  split; [vm_compute; reflexivity|]. split; [|vm_compute; reflexivity].
  right. right. reflexivity.
Qed.

(** The other way round, a listed name with the suffix twice is found
    for a configured name that has it once. *)
Example check_accepts_suffix_twice :
  CheckModelExists
    (Reference.always
       (Answered 200 (unq "{'models':[{'name':'foo:latest:latest'}]}"))
       "foo:latest") = None.
Proof. vm_compute. reflexivity. Qed.

Example check_finds_gemma :
  CheckModelExists
    (Reference.always
       (Answered 200 (unq "{'models':[{'name':'llava:7b'},{'name':'gemma3:4b'}]}"))
       "gemma3:4b") = None
  /\ CheckModelExists
       (Reference.always
          (Answered 200 (unq "{'models':[{'name':'gemma3:4b:latest'},{'name':'gemma3:4b'}]}"))
          "gemma3:9b")
     = Some "model 'gemma3:9b' not found. Available models: [gemma3:4b:latest gemma3:4b]".
Proof. split; vm_compute; reflexivity. Qed.

(** ** White space and lines *)

Lemma space1_not_cont (a : ascii) : space1 a = true -> cont a = false.
Proof.
  unfold space1, cont. intros Hs. bools; bool_goal; left; bool_goal; lia.
Qed.

Lemma cont_not_space1 (a : ascii) : cont a = true -> space1 a = false.
Proof.
  intros Hc. destruct (space1 a) eqn:E; [|reflexivity].
  apply space1_not_cont in E. congruence.
Qed.

Lemma space2_bytes (a b : ascii) :
  space2 a b = true -> cont a = false /\ cont b = true.
Proof.
  unfold space2, cont. intros Hs. bools; bool_goal; try lia; right; bool_goal; lia.
Qed.

Lemma space3_bytes (a b c : ascii) :
  space3 a b c = true -> cont a = false /\ cont b = true /\ cont c = true.
Proof.
  unfold space3, cont. intros Hs.
  bools; bool_goal; try lia; right; bool_goal; lia.
Qed.

Lemma cont_not_space2 (a b : ascii) : cont a = true -> space2 a b = false.
Proof.
  intros Hc. destruct (space2 a b) eqn:E; [|reflexivity].
  apply space2_bytes in E as [E _]. congruence.
Qed.

Lemma lead_not_space2 (a b : ascii) : cont b = false -> space2 a b = false.
Proof.
  intros Hc. destruct (space2 a b) eqn:E; [|reflexivity].
  apply space2_bytes in E as [_ E]. congruence.
Qed.

Lemma lead_not_space3_2 (a b c : ascii) : cont b = false -> space3 a b c = false.
Proof.
  intros Hc. destruct (space3 a b c) eqn:E; [|reflexivity].
  apply space3_bytes in E as [_ [E _]]. congruence.
Qed.

Lemma lead_not_space3_3 (a b c : ascii) : cont c = false -> space3 a b c = false.
Proof.
  intros Hc. destruct (space3 a b c) eqn:E; [|reflexivity].
  apply space3_bytes in E as [_ [_ E]]. congruence.
Qed.

Lemma cont_not_LF (a : ascii) : cont a = true -> char_eqb a LF = false.
Proof.
  intros Hc. destruct (char_eqb a LF) eqn:E; [|reflexivity].
  apply char_eqb_eq in E. subst. discriminate.
Qed.

Lemma not_space1_not_LF (a : ascii) : space1 a = false -> char_eqb a LF = false.
Proof.
  intros Hc. destruct (char_eqb a LF) eqn:E; [|reflexivity].
  apply char_eqb_eq in E. subst. discriminate.
Qed.

(** The first byte of a white-space rune is no continuation byte. *)
Lemma space_rune_lead (tok : list ascii) :
  space_rune tok -> exists a t, tok = a :: t /\ cont a = false.
Proof.
  intros [a Ha | a b Ha Hb | a b c Ha Hb Hc].
  - exists a, []. split; [reflexivity | apply space1_not_cont, Ha].
  - exists a, [b]. split; [reflexivity | apply (space2_bytes _ _ Hb)].
  - exists a, [b; c]. split; [reflexivity | apply (space3_bytes _ _ _ Hc)].
Qed.

Lemma TrimLeft_rune (tok s : list ascii) :
  space_rune tok -> TrimLeft (tok ++ s) = TrimLeft s.
Proof.
  intros [a Ha | a b Ha Hb | a b c Ha Hb Hc]; simpl.
  - rewrite Ha. reflexivity.
  - rewrite Ha, Hb. reflexivity.
  - rewrite Ha, Hb, Hc. reflexivity.
Qed.

Lemma TrimLeftRev_rune (tok s : list ascii) :
  space_rune tok -> TrimLeftRev (rev tok ++ s) = TrimLeftRev s.
Proof.
  intros [a Ha | a b Ha Hb | a b c Ha Hb Hc]; simpl.
  - rewrite Ha. reflexivity.
  - rewrite (cont_not_space1 b), Hb; [reflexivity|].
    apply (space2_bytes _ _ Hb).
  - destruct (space3_bytes _ _ _ Hc) as [_ [Cb Cc]].
    rewrite (cont_not_space1 c Cc), (cont_not_space2 b c Cb), Hc. reflexivity.
Qed.

(** Either the text starts with no white-space rune and [TrimLeft] leaves
    it, or it starts with one. *)
Lemma TrimLeft_cases (s : list ascii) :
  (TrimLeft s = s /\ forall tok r, space_rune tok -> s <> tok ++ r)
  \/ exists tok r, space_rune tok /\ s = tok ++ r.
Proof.
  destruct s as [|a t]; [left; split; [reflexivity|] |].
  { intros tok r Htok E. destruct (space_rune_lead _ Htok) as [x [y [-> _]]].
    discriminate. }
  destruct (space1 a) eqn:Ha.
  { right. exists [a], t. split; [constructor; exact Ha | reflexivity]. }
  assert (N1 : forall tok r, space_rune tok -> a :: t = tok ++ r ->
                             tok <> [a] ).
  { intros tok r Htok E ->. inversion Htok; congruence. }
  destruct t as [|b t2].
  { left. split; [simpl; rewrite Ha; reflexivity|].
    intros tok r Htok E. inversion Htok; subst; simpl in E; congruence. }
  destruct (space2 a b) eqn:Hb.
  { right. exists [a; b], t2. split; [constructor; assumption | reflexivity]. }
  destruct t2 as [|c t3].
  { left. split; [simpl; rewrite Ha, Hb; reflexivity|].
    intros tok r Htok E. inversion Htok; subst; simpl in E; congruence. }
  destruct (space3 a b c) eqn:Hc.
  { right. exists [a; b; c], t3.
    split; [constructor; assumption | reflexivity]. }
  left. split; [simpl; rewrite Ha, Hb, Hc; reflexivity|].
  intros tok r Htok E. inversion Htok; subst; simpl in E; congruence.
Qed.

Lemma space2_first (a b : ascii) : space2 a b = true -> space1 a = false.
Proof.
  unfold space2, space1. intros Hs. bools; cbv zeta;
    repeat match goal with H : nat_of_ascii _ = _ |- _ => rewrite H; clear H end;
    reflexivity.
Qed.

Lemma space3_first (a b c : ascii) :
  space3 a b c = true -> space1 a = false /\ space2 a b = false.
Proof.
  unfold space3, space2, space1. intros Hs.
  bools; cbv zeta;
    repeat match goal with H : nat_of_ascii a = _ |- _ => rewrite H; clear H end;
    split; reflexivity.
Qed.

Lemma TrimLeftRev_cases (s : list ascii) :
  TrimLeftRev s = s
  \/ exists tok r, space_rune tok /\ s = rev tok ++ r.
Proof.
  destruct s as [|a t]; [left; reflexivity|].
  destruct (space1 a) eqn:Ha.
  { right. exists [a], t. split; [constructor; exact Ha | reflexivity]. }
  destruct t as [|b t2]; [left; simpl; rewrite Ha; reflexivity|].
  destruct (space2 b a) eqn:Hb.
  { right. exists [b; a], t2. split; [|reflexivity].
    constructor; [apply (space2_first _ _ Hb) | exact Hb]. }
  destruct t2 as [|c t3]; [left; simpl; rewrite Ha, Hb; reflexivity|].
  destruct (space3 c b a) eqn:Hc.
  { right. exists [c; b; a], t3. split; [|reflexivity].
    destruct (space3_first _ _ _ Hc). constructor; assumption. }
  left. simpl. rewrite Ha, Hb, Hc. reflexivity.
Qed.

Lemma Split_bytes (s : string) :
  Split s = map string_of_list_ascii (split_bytes (list_ascii_of_string s)).
Proof.
  induction s as [|c t IH]; simpl; [reflexivity|].
  destruct (char_eqb c LF); simpl; [rewrite IH; reflexivity|].
  rewrite IH. destruct (split_bytes _); reflexivity.
Qed.

Lemma split_bytes_cons (s : list ascii) :
  exists h r, split_bytes s = h :: r.
Proof.
  destruct s as [|c t]; simpl; [eauto|].
  destruct (char_eqb c LF); [eauto|]. destruct (split_bytes t); eauto.
Qed.

Lemma split_bytes_snoc (s : list ascii) :
  exists init lst, split_bytes s = init ++ [lst].
Proof.
  destruct (split_bytes_cons s) as [h [r ->]].
  destruct (exists_last (l := h :: r)) as [init [lst ->]]; [discriminate|].
  eauto.
Qed.

(** A prefix without line feed joins the first line. *)
Lemma split_bytes_prefix (p s h : list ascii) (r : list (list ascii)) :
  forallb (fun c => negb (char_eqb c LF)) p = true ->
  split_bytes s = h :: r ->
  split_bytes (p ++ s) = (p ++ h) :: r.
Proof.
  intros Hp Hs. induction p as [|c p IH]; simpl in *; [exact Hs|].
  apply andb_true_iff in Hp as [Hc Hp]. apply negb_true_iff in Hc.
  rewrite Hc, (IH Hp). reflexivity.
Qed.

(** A suffix without line feed joins the last line. *)
Lemma split_bytes_suffix (s q lst : list ascii) (init : list (list ascii)) :
  forallb (fun c => negb (char_eqb c LF)) q = true ->
  split_bytes s = init ++ [lst] ->
  split_bytes (s ++ q) = init ++ [lst ++ q].
Proof.
  intros Hq. revert init lst. induction s as [|c t IH]; intros init lst Hs.
  - simpl in Hs. destruct init as [|x [|y init]]; simpl in Hs;
      try discriminate. injection Hs as <-.
    simpl. pose proof (split_bytes_prefix q [] [] [] Hq eq_refl) as E.
    rewrite !List.app_nil_r in E. exact E.
  - simpl in *. destruct (char_eqb c LF).
    + destruct init as [|x init]; simpl in Hs.
      * injection Hs as _ Hs. destruct (split_bytes_cons t) as [? [? E]].
        rewrite E in Hs. discriminate.
      * injection Hs as <- Hs. rewrite (IH _ _ Hs). reflexivity.
    + destruct (split_bytes_snoc t) as [i0 [l0 E]]. rewrite E in Hs.
      rewrite (IH _ _ E).
      destruct i0 as [|x i0]; simpl in *.
      * destruct init as [|y [|z init]]; simpl in Hs; try discriminate.
        injection Hs as <-. reflexivity.
      * destruct init as [|y init]; simpl in Hs.
        { injection Hs as _ Hs. destruct i0; discriminate. }
        injection Hs as <- Hs. apply app_inj_tail in Hs as [-> ->].
        reflexivity.
Qed.

Lemma split_bytes_LF_snoc (s : list ascii) :
  split_bytes (s ++ [LF]) = split_bytes s ++ [[]].
Proof.
  induction s as [|c t IH]; simpl; [reflexivity|].
  destruct (char_eqb c LF); simpl; [rewrite IH; reflexivity|].
  rewrite IH. destruct (split_bytes_cons t) as [h [r ->]]. reflexivity.
Qed.

Lemma space_rune_LF (tok : list ascii) :
  space_rune tok ->
  tok = [LF] \/ forallb (fun c => negb (char_eqb c LF)) tok = true.
Proof.
  intros [a Ha | a b Ha Hb | a b c Ha Hb Hc]; simpl.
  - destruct (char_eqb a LF) eqn:E; [left | right; reflexivity].
    apply char_eqb_eq in E. subst. reflexivity.
  - right. rewrite (not_space1_not_LF a Ha).
    rewrite (cont_not_LF b); [reflexivity | apply (space2_bytes _ _ Hb)].
  - right. destruct (space3_bytes _ _ _ Hc) as [_ [Cb Cc]].
    rewrite (not_space1_not_LF a Ha), (cont_not_LF b Cb), (cont_not_LF c Cc).
    reflexivity.
Qed.

Lemma space_rune_length (tok : list ascii) :
  space_rune tok -> 0 < length tok.
Proof. intros []; simpl; lia. Qed.

Lemma trim_bytes_rune_l (tok x : list ascii) :
  space_rune tok -> trim_bytes (tok ++ x) = trim_bytes x.
Proof.
  intros Htok. unfold trim_bytes. rewrite (TrimLeft_rune tok x Htok).
  reflexivity.
Qed.

Lemma lines_bytes_rune_l (tok c : list ascii) :
  space_rune tok -> lines_bytes (tok ++ c) = lines_bytes c.
Proof.
  intros Htok. unfold lines_bytes.
  destruct (space_rune_LF tok Htok) as [-> | Hno].
  - reflexivity.
  - destruct (split_bytes_cons c) as [h [r E]].
    rewrite (split_bytes_prefix tok c h r Hno E), E. simpl.
    rewrite (trim_bytes_rune_l tok h Htok). reflexivity.
Qed.

Lemma lines_bytes_TrimLeft (c : list ascii) :
  lines_bytes (TrimLeft c) = lines_bytes c.
Proof.
  remember (length c) as n eqn:Hn. revert c Hn.
  induction n as [n IH] using lt_wf_ind. intros c ->.
  destruct (TrimLeft_cases c) as [[E _] | [tok [r [Htok ->]]]].
  - rewrite E. reflexivity.
  - rewrite (TrimLeft_rune tok r Htok), (lines_bytes_rune_l tok r Htok).
    apply (IH (length r)); [|reflexivity].
    rewrite length_app. pose proof (space_rune_length tok Htok). lia.
Qed.

Lemma TrimLeft_snoc_rune (x tok : list ascii) :
  space_rune tok ->
  TrimLeft (x ++ tok)
  = match TrimLeft x with [] => [] | _ :: _ => TrimLeft x ++ tok end.
Proof.
  intros Htok. remember (length x) as n eqn:Hn. revert x Hn.
  induction n as [n IH] using lt_wf_ind. intros x ->.
  destruct (space_rune_lead tok Htok) as [d [t' [Etok Hd]]].
  destruct x as [|a t].
  { simpl. rewrite <- (List.app_nil_r tok). apply TrimLeft_rune, Htok. }
  destruct (space1 a) eqn:Ha.
  { change ((a :: t) ++ tok) with ([a] ++ (t ++ tok)).
    change (a :: t) with ([a] ++ t).
    rewrite !(TrimLeft_rune [a]) by (constructor; exact Ha).
    apply (IH (length t)); [simpl; lia | reflexivity]. }
  destruct t as [|b t2].
  { subst tok. simpl. rewrite Ha, (lead_not_space2 a d Hd).
    destruct t' as [|c' t3]; [reflexivity|].
    rewrite (lead_not_space3_2 a d c' Hd). reflexivity. }
  destruct (space2 a b) eqn:Hb.
  { change ((a :: b :: t2) ++ tok) with ([a; b] ++ (t2 ++ tok)).
    change (a :: b :: t2) with ([a; b] ++ t2).
    rewrite !(TrimLeft_rune [a; b]) by (constructor; assumption).
    apply (IH (length t2)); [simpl; lia | reflexivity]. }
  destruct t2 as [|c t3].
  { subst tok. simpl. rewrite Ha, Hb, (lead_not_space3_3 a b d Hd).
    reflexivity. }
  destruct (space3 a b c) eqn:Hc.
  { change ((a :: b :: c :: t3) ++ tok) with ([a; b; c] ++ (t3 ++ tok)).
    change (a :: b :: c :: t3) with ([a; b; c] ++ t3).
    rewrite !(TrimLeft_rune [a; b; c]) by (constructor; assumption).
    apply (IH (length t3)); [simpl; lia | reflexivity]. }
  simpl. rewrite Ha, Hb, Hc. reflexivity.
Qed.

Lemma TrimRight_snoc_rune (y tok : list ascii) :
  space_rune tok -> TrimRight (y ++ tok) = TrimRight y.
Proof.
  intros Htok. unfold TrimRight.
  rewrite rev_app_distr, (TrimLeftRev_rune tok _ Htok). reflexivity.
Qed.

Lemma trim_bytes_snoc_rune (x tok : list ascii) :
  space_rune tok -> trim_bytes (x ++ tok) = trim_bytes x.
Proof.
  intros Htok. unfold trim_bytes. rewrite (TrimLeft_snoc_rune x tok Htok).
  destruct (TrimLeft x) as [|a y]; [reflexivity|].
  apply TrimRight_snoc_rune, Htok.
Qed.

Lemma lines_bytes_rune_r (c tok : list ascii) :
  space_rune tok -> lines_bytes (c ++ tok) = lines_bytes c.
Proof.
  intros Htok. unfold lines_bytes.
  destruct (space_rune_LF tok Htok) as [-> | Hno].
  - rewrite split_bytes_LF_snoc, map_app, List.filter_app. simpl.
    apply List.app_nil_r.
  - destruct (split_bytes_snoc c) as [init [lst E]].
    rewrite (split_bytes_suffix c tok lst init Hno E), E.
    rewrite !map_app, !List.filter_app. simpl.
    rewrite (trim_bytes_snoc_rune lst tok Htok). reflexivity.
Qed.

Lemma lines_bytes_TrimRight (c : list ascii) :
  lines_bytes (TrimRight c) = lines_bytes c.
Proof.
  remember (length c) as n eqn:Hn. revert c Hn.
  induction n as [n IH] using lt_wf_ind. intros c ->.
  unfold TrimRight.
  destruct (TrimLeftRev_cases (rev c)) as [E | [tok [r [Htok E]]]].
  - rewrite E, rev_involutive. reflexivity.
  - rewrite E, (TrimLeftRev_rune tok r Htok).
    assert (Ec : c = rev r ++ tok).
    { rewrite <- (rev_involutive c), E, rev_app_distr, rev_involutive.
      reflexivity. }
    replace (rev (TrimLeftRev r)) with (TrimRight (rev r))
      by (unfold TrimRight; rewrite rev_involutive; reflexivity).
    rewrite (IH (length (rev r))); [| |reflexivity].
    + rewrite Ec. symmetry. apply lines_bytes_rune_r, Htok.
    + rewrite Ec, length_app. pose proof (space_rune_length tok Htok). lia.
Qed.

(** Trimming the whole text first changes none of its trimmed, non-blank
    lines. *)
Lemma lines_bytes_trim (c : list ascii) :
  lines_bytes (trim_bytes c) = lines_bytes c.
Proof.
  unfold trim_bytes. rewrite lines_bytes_TrimRight. apply lines_bytes_TrimLeft.
Qed.

(** ** The jobs sent *)

Lemma eqb_empty_bytes (x : list ascii) :
  String.eqb (string_of_list_ascii x) "" = negb (nonempty x).
Proof. destruct x; reflexivity. Qed.

Lemma TrimSpace_bytes (l : list ascii) :
  TrimSpace (string_of_list_ascii l) = string_of_list_ascii (trim_bytes l).
Proof.
  unfold TrimSpace. rewrite list_ascii_of_string_of_list_ascii. reflexivity.
Qed.

Lemma favicon_url_spec (url : string) :
  favicon_url url = Spec.with_favicon url.
Proof.
  unfold favicon_url, Spec.with_favicon. simpl.
  destruct (HasSuffix url ".ico"), (HasSuffix url ".png"),
    (HasSuffix url ".jpg"), (HasSuffix url ".jpeg"), (HasSuffix url ".gif"),
    (HasSuffix url ".svg"), (Contains url "favicon"); reflexivity.
Qed.

Lemma send_jobs_bytes (ls : list (list ascii)) :
  send_jobs (map string_of_list_ascii ls)
  = map job_of_bytes (List.filter nonempty (map trim_bytes ls)).
Proof.
  induction ls as [|l ls IH]; simpl; [reflexivity|].
  unfold job_of_line. rewrite TrimSpace_bytes, eqb_empty_bytes.
  destruct (nonempty (trim_bytes l)); simpl; rewrite IH; reflexivity.
Qed.

Lemma dispatched_bytes (content : string) :
  dispatched content
  = map job_of_bytes (lines_bytes (list_ascii_of_string content)).
Proof.
  unfold dispatched, lines_of. rewrite Split_bytes, send_jobs_bytes.
  unfold TrimSpace. rewrite list_ascii_of_string_of_list_ascii.
  fold (trim_bytes (list_ascii_of_string content)).
  fold (lines_bytes (trim_bytes (list_ascii_of_string content))).
  rewrite lines_bytes_trim. reflexivity.
Qed.

Lemma spec_jobs_bytes (content : string) :
  Spec.jobs content
  = map job_of_bytes (lines_bytes (list_ascii_of_string content)).
Proof.
  unfold Spec.jobs, Spec.candidate_urls, lines_bytes.
  rewrite Split_bytes.
  induction (split_bytes (list_ascii_of_string content)) as [|l ls IH];
    simpl; [reflexivity|].
  rewrite TrimSpace_bytes, eqb_empty_bytes, negb_involutive.
  destruct (nonempty (trim_bytes l)); simpl; rewrite IH;
    [unfold job_of_bytes; rewrite favicon_url_spec|]; reflexivity.
Qed.

(** The send loop as a pipeline: the lines of the text in order, each
    trimmed of white space, the blank ones left out, with
    ["/favicon.ico"] (or ["favicon.ico"] after a final slash) added to the
    URLs that end in none of the six suffixes [main] tests and do not
    contain ["favicon"]. *)
Lemma dispatched_pipeline (content : string) :
  dispatched content = Spec.jobs content.
Proof. rewrite dispatched_bytes, spec_jobs_bytes. reflexivity. Qed.

(** C5.  The send loop takes a URL for an image file only when it ends in
    [.ico], [.png], [.jpg], [.jpeg], [.gif] or [.svg].  A line
    [example.com/logo.webp] or [example.com/icon.bmp], the address of an
    image in a format whose decoder [main.go] registers, is sent as the job
    [example.com/logo.webp/favicon.ico] or
    [example.com/icon.bmp/favicon.ico], where [example.com/logo.png] is
    sent as it is.  The four lines of the example of the specification
    give its three jobs. *)
Theorem image_suffix_missed :
  HasSuffix "example.com/logo.webp" ".webp" = true
  /\ Contains "example.com/logo.webp" "favicon" = false
  /\ dispatched "example.com/logo.webp"
     = [ {| Job_URL := "example.com/logo.webp/favicon.ico" |} ]
  /\ dispatched (Join ["example.com/logo.png"; "  example.com/icon.bmp ";
                       "   "; "x.test/favicon"; "example.com/logo.webp"])
     = [ {| Job_URL := "example.com/logo.png" |};
         {| Job_URL := "example.com/icon.bmp/favicon.ico" |};
         {| Job_URL := "x.test/favicon" |};
         {| Job_URL := "example.com/logo.webp/favicon.ico" |} ]
  /\ dispatched (Join ["a.com"; "b.com/"; ""; "c.com/logo.png"])
     = [ {| Job_URL := "a.com/favicon.ico" |};
         {| Job_URL := "b.com/favicon.ico" |};
         {| Job_URL := "c.com/logo.png" |} ].
Proof. repeat split; vm_compute; reflexivity. Qed.

(** ** Base64 payloads *)

Module Base64Facts.

Import Base64.

Lemma dec_enc (x : sextet) : dec_char (enc_char x) = Some x.
Proof.
  destruct x as [[[[[[] []] []] []] []] []]; vm_compute; reflexivity.
Qed.

Lemma enc_not_pad (x : sextet) : char_eqb (enc_char x) pad = false.
Proof.
  destruct x as [[[[[[] []] []] []] []] []]; vm_compute; reflexivity.
Qed.

Lemma byte1_sextets (a b : ascii) : byte1 (hi6 a) (lo2_hi4 a b) = a.
Proof. destruct a, b. reflexivity. Qed.

Lemma byte2_sextets (a b c : ascii) :
  byte2 (lo2_hi4 a b) (lo4_hi2 b c) = b.
Proof. destruct a, b, c. reflexivity. Qed.

Lemma byte3_sextets (b c : ascii) : byte3 (lo4_hi2 b c) (lo6 c) = c.
Proof. destruct b, c. reflexivity. Qed.

(** Decoding what was encoded gives the bytes back. *)
Lemma decode_encode (src : string) :
  DecodeString (EncodeToString src) = Some src.
Proof.
  remember (String.length src) as n eqn:Hn. revert src Hn.
  induction n as [n IH] using lt_wf_ind. intros src ->.
  destruct src as [|a [|b [|c rest]]].
  - reflexivity.
  - cbn [EncodeToString DecodeString].
    change (char_eqb pad pad) with true. cbv iota.
    rewrite !dec_enc, byte1_sextets. reflexivity.
  - cbn [EncodeToString DecodeString].
    change (char_eqb pad pad) with true. cbv iota.
    rewrite enc_not_pad, !dec_enc, byte1_sextets, byte2_sextets.
    reflexivity.
  - cbn [EncodeToString DecodeString].
    rewrite enc_not_pad, !dec_enc.
    rewrite (IH (String.length rest)); [|simpl; lia | reflexivity].
    rewrite byte1_sextets, byte2_sextets, byte3_sextets. reflexivity.
Qed.

End Base64Facts.

(** ** Downloading and normalising an image *)

Lemma download_answered `{Codecs} (o : Client) (url data : string) :
  HTTPClient o (image_request url) = Answered 200 data ->
  DownloadImageAsBase64 o url
  = match image_Decode data with
    | Failure err =>
        Failure ("error decoding image from " +:+ url +:+ ": " +:+ err)
    | Success (img, format) =>
        if String.eqb format "png" then Success (Base64.EncodeToString data)
        else match png_Encode img with
             | Failure err => Failure ("error encoding PNG: " +:+ err)
             | Success buf => Success (Base64.EncodeToString buf)
             end
    end.
Proof. unfold DownloadImageAsBase64. intros ->. reflexivity. Qed.

(** C7.  A fetched file that decodes as PNG becomes the payload as it is:
    the payload is the base64 text of the fetched bytes, whatever the PNG
    encoder would make of the picture, and it decodes back to exactly these
    bytes.  A file of another format gives the base64 text of what the PNG
    encoder produces from the decoded picture. *)
Theorem png_bytes_reused `{Codecs} (o : Client) (url data format : string)
        (img : Image) :
  HTTPClient o (image_request url) = Answered 200 data ->
  image_Decode data = Success (img, format) ->
  (format = "png" ->
   DownloadImageAsBase64 o url = Success (Base64.EncodeToString data)
   /\ Base64.DecodeString (Base64.EncodeToString data) = Some data)
  /\ (format <> "png" ->
      forall buf, png_Encode img = Success buf ->
      DownloadImageAsBase64 o url = Success (Base64.EncodeToString buf)
      /\ Base64.DecodeString (Base64.EncodeToString buf) = Some buf).
Proof.
  intros Hresp Hdec. rewrite (download_answered o url data Hresp), Hdec.
  split.
  - intros ->. split; [reflexivity | apply Base64Facts.decode_encode].
  - intros Hfmt buf Henc. apply String.eqb_neq in Hfmt. rewrite Hfmt, Henc.
    split; [reflexivity | apply Base64Facts.decode_encode].
Qed.

Lemma png_bytes_reused_witness :
  let data := Reference.png_signature +:+ "IHDR" in
  let o := Reference.always (Answered 200 data) "gemma3:4b" in
  DownloadImageAsBase64 o "a.com/favicon.ico"
  = Success (Base64.EncodeToString data)
  /\ Base64.DecodeString (Base64.EncodeToString data) = Some data.
Proof.
  intros data o.
  destruct (@png_bytes_reused Reference.codecs o "a.com/favicon.ico" data
                              "png" data) as [Hpng _];
    [reflexivity | reflexivity | apply Hpng; reflexivity].
Defined.

(** ** Reading the streamed response *)

Section Stream.

Context `{Codecs}.

Lemma text_of_app (rs1 rs2 : list Json.object) :
  Spec.text_of (rs1 ++ rs2) = Spec.text_of rs1 +:+ Spec.text_of rs2.
Proof.
  induction rs1 as [|r rs1 IH]; simpl; [reflexivity|].
  rewrite IH, sapp_assoc. reflexivity.
Qed.

(** The loop computes what the specification describes, from any
    accumulator. *)
Lemma read_stream_spec (lines : list string) (acc : string) :
  read_stream lines acc
  = acc +:+ Spec.text_of (Spec.upto_done (Spec.records lines)).
Proof.
  revert acc. unfold Spec.records.
  induction lines as [|line rest IH]; intros acc; simpl.
  - rewrite sapp_nil_r. reflexivity.
  - destruct (String.eqb (TrimSpace line) ""); simpl; [apply IH|].
    destruct (json_Unmarshal_chunk (TrimSpace line)) as [chunk|]; simpl;
      [|apply IH].
    destruct (chunk_done chunk); simpl.
    + rewrite sapp_nil_r. reflexivity.
    + rewrite IH, sapp_assoc. reflexivity.
Qed.

(** Nothing after a final record is looked at. *)
Lemma read_stream_stops (before after : list string) (line acc : string) :
  final_record line ->
  read_stream (before ++ line :: after) acc
  = read_stream (before ++ [line]) acc.
Proof.
  intros [Hne [chunk [Hchunk Hdone]]]. apply String.eqb_neq in Hne.
  revert acc. induction before as [|l before IH]; intros acc; simpl.
  - rewrite Hne, Hchunk, Hdone. reflexivity.
  - destruct (String.eqb (TrimSpace l) ""); [apply IH|].
    destruct (json_Unmarshal_chunk (TrimSpace l)) as [c|]; [|apply IH].
    destruct (chunk_done c); [reflexivity | apply IH].
Qed.

Lemma upto_done_all (rs : list Json.object) :
  Forall (fun r => chunk_done r = false) rs -> Spec.upto_done rs = rs.
Proof.
  induction 1 as [|r rs Hr _ IH]; simpl; [reflexivity|].
  rewrite Hr, IH. reflexivity.
Qed.

End Stream.

Lemma Split_cons (s : string) : exists h r, Split s = h :: r.
Proof.
  destruct s as [|c t]; simpl; [eauto|].
  destruct (char_eqb c LF); [eauto|]. destruct (Split t); eauto.
Qed.

Lemma Split_app_LF (p e : string) :
  Split (p +:+ String LF e) = Split p ++ Split e.
Proof.
  induction p as [|c p IH].
  - reflexivity.
  - rewrite sapp_cons. simpl. rewrite IH.
    destruct (char_eqb c LF); [reflexivity|].
    destruct (Split_cons p) as [h [r ->]]. reflexivity.
Qed.

Lemma Split_snoc (s : string) : exists init lst, Split s = init ++ [lst].
Proof.
  assert (Hne : Split s <> []).
  { destruct s as [|c t]; simpl; [discriminate|].
    destruct (char_eqb c LF); [discriminate|]. destruct (Split t); discriminate. }
  destruct (exists_last Hne) as [init [lst E]]. eauto.
Qed.

Lemma example_final_record :
  @final_record Reference.codecs
    (unq "{'message':{'content':'s'},'done':true}").
Proof.
  split; [vm_compute; discriminate|].
  eexists. split; vm_compute; reflexivity.
Qed.

Lemma example_stream_lines (trailing : string) :
  Split (example_stream +:+ String LF trailing)
  = [unq "{'message':{'content':'Ye'}}"; "NOT-JSON"]
      ++ unq "{'message':{'content':'s'},'done':true}" :: Split trailing.
Proof. rewrite Split_app_LF. reflexivity. Qed.

(** C2.  The loop over the lines of a response computes what the
    specification lists: the lines are trimmed, the blank ones and those
    that do not decode are passed over, the [message.content] of the
    decoded ones is appended in order, up to and including the first one
    whose [done] is true; no line after that one has any influence.  The
    response of the example, followed by any text at all, reassembles to
    ["Yes"] and is a match. *)
Theorem stream_reassembled `{Codecs} (body : string)
        (before after : list string) (line acc trailing : string) :
  read_stream (Split body) "" = Spec.answer body
  /\ (final_record line ->
      read_stream (before ++ line :: after) acc
      = read_stream (before ++ [line]) acc)
  /\ (let full := example_stream +:+ String LF trailing in
      @read_stream Reference.codecs (Split full) "" = "Yes"
      /\ @CompareFaviconsChatAPI Reference.codecs
           (Reference.always (Answered 200 full) "gemma3:4b") "QQ==" "Qg=="
         = (true, None)).
Proof.
  split; [rewrite read_stream_spec; reflexivity|].
  split; [apply read_stream_stops|].
  intros full.
  assert (E : @read_stream Reference.codecs (Split full) "" = "Yes").
  { unfold full. rewrite example_stream_lines.
    rewrite (@read_stream_stops Reference.codecs _ _ _ _ example_final_record).
    vm_compute. reflexivity. }
  split; [exact E|].
  rewrite (@compare_answered Reference.codecs
             (Reference.always (Answered 200 full) "gemma3:4b")
             "QQ==" "Qg==" 200 full eq_refl), E.
  reflexivity.
Qed.

Lemma stream_reassembled_witness :
  let first := unq "{'message':{'content':'Ye'}}" in
  let last := unq "{'message':{'content':'s'},'done':true}" in
  @read_stream Reference.codecs
    ([first; "NOT-JSON"] ++ last :: ["extra-garbage"]) ""
  = @read_stream Reference.codecs ([first; "NOT-JSON"] ++ [last]) "".
Proof.
  intros first last.
  destruct (@stream_reassembled Reference.codecs "" [first; "NOT-JSON"]
              ["extra-garbage"] last "" "") as (_ & Hstop & _).
  apply Hstop. split; [vm_compute; discriminate|].
  eexists. split; vm_compute; reflexivity.
Defined.

Example stream_with_garbage :
  let body := Join [unq "{'message':{'content':'Ye'}}"; "NOT-JSON";
                    unq "{'message':{'content':'s'},'done':true}";
                    "extra-garbage"] in
  @read_stream Reference.codecs (Split body) "" = "Yes"
  /\ @CompareFaviconsChatAPI Reference.codecs
       (Reference.always (Answered 200 body) "gemma3:4b") "QQ==" "Qg=="
     = (true, None).
Proof. split; vm_compute; reflexivity. Qed.

(** C9.  The status code of the answer to [/api/chat] plays no part: any
    answer, whatever its status, gives the verdict read from its body and a
    nil error. *)
Theorem compare_ignores_status `{Codecs} (o1 o2 : Client) (a b : string)
        (status1 status2 : Z) (body : string) :
  HTTPClient o1 (chat_request o1 a b) = Answered status1 body ->
  HTTPClient o2 (chat_request o2 a b) = Answered status2 body ->
  CompareFaviconsChatAPI o1 a b = (Contains (Spec.answer body) "Yes", None)
  /\ CompareFaviconsChatAPI o2 a b = CompareFaviconsChatAPI o1 a b.
Proof.
  intros H1 H2.
  rewrite (compare_answered o1 a b status1 body H1),
    (compare_answered o2 a b status2 body H2), read_stream_spec.
  split; reflexivity.
Qed.

Lemma compare_ignores_status_witness :
  let body := unq "{'message':{'content':'Yes'},'done':true}" in
  let ok := Reference.always (Answered 200 body) "gemma3:4b" in
  let broken := Reference.always (Answered 500 body) "gemma3:4b" in
  CompareFaviconsChatAPI ok "QQ==" "Qg=="
  = (Contains (Spec.answer body) "Yes", None)
  /\ CompareFaviconsChatAPI broken "QQ==" "Qg=="
     = CompareFaviconsChatAPI ok "QQ==" "Qg==".
Proof.
  intros body ok broken.
  apply (@compare_ignores_status Reference.codecs ok broken "QQ==" "Qg=="
                                 200 500 body); reflexivity.
Defined.

(** C10.  When no decoded line has [done] true, the loop goes through all
    the lines: the text is that of every decoded line, and the comparison
    returns the verdict on it with a nil error. *)
Theorem no_done_reads_all `{Codecs} (o : Client) (a b : string) (status : Z)
        (body : string) :
  HTTPClient o (chat_request o a b) = Answered status body ->
  Forall (fun r => chunk_done r = false) (Spec.records (Split body)) ->
  read_stream (Split body) "" = Spec.text_of (Spec.records (Split body))
  /\ CompareFaviconsChatAPI o a b
     = (Contains (Spec.text_of (Spec.records (Split body))) "Yes", None).
Proof.
  intros Hresp Hnone.
  assert (E : read_stream (Split body) ""
              = Spec.text_of (Spec.records (Split body))).
  { rewrite read_stream_spec, (upto_done_all _ Hnone). reflexivity. }
  split; [exact E|].
  rewrite (compare_answered o a b status body Hresp), E. reflexivity.
Qed.

Lemma no_done_reads_all_witness :
  let body := Join [unq "{'message':{'content':'Ye'}}"; "";
                    unq "{'message':{'content':'s'},'done':false}";
                    unq "{'model':'gemma3:4b'}"] in
  let o := Reference.always (Answered 200 body) "gemma3:4b" in
  @read_stream Reference.codecs (Split body) "" = "Yes"
  /\ CompareFaviconsChatAPI o "QQ==" "Qg==" = (true, None).
Proof.
  intros body o.
  destruct (@no_done_reads_all Reference.codecs o "QQ==" "Qg==" 200 body)
    as [E1 E2]; [reflexivity | vm_compute; repeat constructor |].
  split; [rewrite E1 | rewrite E2]; vm_compute; reflexivity.
Defined.

(** ** The output file *)

Lemma url_lines_app (rs1 rs2 : list Result) :
  Spec.url_lines (rs1 ++ rs2) = Spec.url_lines rs1 +:+ Spec.url_lines rs2.
Proof.
  induction rs1 as [|r rs1 IH]; simpl; [reflexivity|].
  destruct (Spec.is_match r); [|exact IH].
  rewrite IH, sapp_assoc. reflexivity.
Qed.

Lemma collect_app (outFile : option string) (c : collected)
      (rs1 rs2 : list Result) :
  collect outFile c (rs1 ++ rs2) = collect outFile (collect outFile c rs1) rs2.
Proof. unfold collect. apply fold_left_app. Qed.

Lemma url_lines_cons (r : Result) (rs : list Result) :
  Spec.url_lines (r :: rs) = line_of r +:+ Spec.url_lines rs.
Proof.
  unfold line_of. simpl. destruct (Spec.is_match r); [|reflexivity].
  rewrite sapp_assoc. reflexivity.
Qed.

(** One result: what it adds to the output file and to the standard
    output. *)
Lemma collect_one_file (name : string) (c : collected) (r : Result)
      (old : string) :
  disk c name = Some old ->
  disk (collect_one (Some name) c r) name = Some (old +:+ line_of r)
  /\ (forall p, p <> name -> disk (collect_one (Some name) c r) p = disk c p)
  /\ stdout (collect_one (Some name) c r) = stdout c +:+ line_of r.
Proof.
  intros Hold. unfold collect_one, line_of, Spec.is_match.
  destruct (Err r) as [e|]; simpl.
  { rewrite !sapp_nil_r. auto. }
  destruct (Match r); simpl.
  - unfold Fprintln. rewrite String.eqb_refl, Hold. repeat split.
    intros p Hp. apply String.eqb_neq in Hp. rewrite Hp. reflexivity.
  - rewrite !sapp_nil_r. auto.
Qed.

(** What the loop over the results leaves in the output file, on the
    standard output and in the other files. *)
Lemma collect_file (name : string) (c : collected) (rs : list Result)
      (old : string) :
  disk c name = Some old ->
  disk (collect (Some name) c rs) name = Some (old +:+ Spec.url_lines rs)
  /\ (forall p, p <> name -> disk (collect (Some name) c rs) p = disk c p)
  /\ stdout (collect (Some name) c rs) = stdout c +:+ Spec.url_lines rs.
Proof.
  revert c old. induction rs as [|r rs IH]; intros c old Hold.
  - simpl. rewrite !sapp_nil_r. auto.
  - change (collect (Some name) c (r :: rs))
      with (collect (Some name) (collect_one (Some name) c r) rs).
    destruct (collect_one_file name c r old Hold) as [Hf1 [Ho1 Hs1]].
    destruct (IH _ _ Hf1) as [Hf [Ho Hs]].
    rewrite Hf, Hs, Hs1, url_lines_cons, !sapp_assoc. repeat split.
    intros p Hp. rewrite (Ho p Hp). apply Ho1, Hp.
Qed.

(** C8, as the code has it.  With an output file configured and the system
    letting the program create it, the file is created anew: when the
    results have been gone through it holds the matched URLs, one per line
    in their order of arrival, and nothing of what it held before; the
    other files are as they were, and each further result is handled from
    there. *)
Theorem output_file_written (args : Arguments) (fs : files) (out : string)
        (arrived later : list Result) :
  Output args <> "" ->
  exists c,
    report args true fs out arrived = Some c
    /\ disk c (Output args) = Some (Spec.url_lines arrived)
    /\ (forall p, p <> Output args -> disk c p = fs p)
    /\ stdout c = out +:+ Spec.url_lines arrived
    /\ report args true fs out (arrived ++ later)
       = Some (collect (Some (Output args)) c later).
Proof.
  intros Hout. apply String.eqb_neq in Hout.
  unfold report, os_Create. rewrite Hout. simpl.
  eexists. split; [reflexivity|].
  match goal with |- context [collect _ ?c0 arrived] => set (c1 := c0) end.
  destruct (collect_file (Output args) c1 arrived "") as [Hf [Ho Hs]].
  { unfold c1. simpl. rewrite String.eqb_refl. reflexivity. }
  split; [exact Hf|]. split; [|split; [exact Hs | rewrite collect_app; reflexivity]].
  intros p Hp. rewrite (Ho p Hp). unfold c1. simpl.
  apply String.eqb_neq in Hp. rewrite Hp. reflexivity.
Qed.

Lemma output_file_written_witness :
  exists c,
    report (example_args "found.txt") true (fun _ => None) "" example_results
    = Some c
    /\ disk c "found.txt"
       = Some (Join ["a.com/favicon.ico"; "d.com/favicon.ico"; ""]).
Proof.
  destruct (output_file_written (example_args "found.txt") (fun _ => None) ""
                                example_results [])
    as [c [Hr [Hf _]]]; [discriminate|].
  exists c. split; [exact Hr | exact Hf].
Defined.

(** C8, as the specification words it, fails: a file that held a line
    before the run holds only the match of the run after it. *)
Lemma output_file_truncated :
  let before := fun p : string =>
                  if String.eqb p "found.txt"
                  then Some ("old.example/favicon.ico" +:+ String LF "")
                  else None in
  let arrived := [ {| URL := "a.com/favicon.ico"; Match := true;
                      Err := None |} ] in
  option_map (fun c => disk c "found.txt")
             (report (example_args "found.txt") true before "" arrived)
  = Some (Some ("a.com/favicon.ico" +:+ String LF "")).
Proof. vm_compute. reflexivity. Qed.

(** ** The worker pool *)

Lemma busy_insert (ws : list worker_state) (i : nat) (w0 w1 : worker_state) :
  ws !! i = Some w0 ->
  exists l1 l2,
    busy ws = l1 ++ option_list (job_in w0) ++ l2
    /\ busy (<[i := w1]> ws) = l1 ++ option_list (job_in w1) ++ l2.
Proof.
  intros Hi. exists (busy (take i ws)), (busy (drop (S i) ws)).
  pose proof (lookup_lt_Some _ _ _ Hi) as Hlt.
  rewrite (insert_take_drop ws i w1 Hlt).
  rewrite <- (take_drop_middle ws i w0 Hi) at 1.
  unfold busy. rewrite !omap_app. simpl.
  destruct (job_in w0), (job_in w1); auto.
Qed.

Lemma all_returned_spec (ws : list worker_state) :
  all_returned ws = true <-> forall w, w ∈ ws -> w = Returned.
Proof.
  unfold all_returned. rewrite forallb_forall. split.
  - intros Hall w Hw. apply list_elem_of_In, Hall in Hw.
    destruct w; [discriminate.. | reflexivity].
  - intros Hall w Hw. apply list_elem_of_In, Hall in Hw. subst. reflexivity.
Qed.

Lemma returned_at (ws : list worker_state) (i : nat) (w : worker_state) :
  all_returned ws = true -> ws !! i = Some w -> w = Returned.
Proof.
  intros Hall Hi. apply (proj1 (all_returned_spec ws) Hall).
  eapply list_elem_of_lookup_2, Hi.
Qed.

Lemma all_returned_busy (ws : list worker_state) :
  all_returned ws = true -> busy ws = [].
Proof.
  induction ws as [|w ws IH]; simpl; [reflexivity|].
  intros Hall. apply andb_true_iff in Hall as [Hw Hall].
  destruct w; try discriminate. apply IH, Hall.
Qed.

Lemma Permutation_move {A : Type} (a b c : list A) (x : A) :
  a ++ b ++ x :: c ≡ₚ (a ++ [x]) ++ b ++ c.
Proof.
  rewrite <- app_assoc. simpl. apply Permutation_app_head.
  symmetry. apply Permutation_middle.
Qed.

Lemma process_URL `{Codecs} (o : Client) (baseIcon : string) (job : Job) :
  URL (process o baseIcon job) = Job_URL job.
Proof.
  unfold process. destruct (DownloadImageAsBase64 o (Job_URL job));
    [destruct (CompareFaviconsChatAPI _ _ _)|]; reflexivity.
Qed.

Lemma send_jobs_length (lines : list string) :
  length (send_jobs lines) <= length lines.
Proof.
  induction lines as [|l lines IH]; simpl; [lia|].
  destruct (job_of_line l); simpl; lia.
Qed.

Section Pool.

Context `{Codecs}.

Variable baseIcon host model : string.
Variable lines0 : list string.
Variable nworkers : Z.

Local Abbreviation step := (step baseIcon host model).
Local Abbreviation steps := (steps baseIcon host model).
Local Abbreviation invariant := (invariant lines0 nworkers).

Lemma invariant_start : invariant (start lines0 nworkers).
Proof.
  constructor; simpl; try reflexivity; try lia.
  - repeat split; lia.
  - replace (busy (replicate (Z.to_nat nworkers) Ranging)) with (@nil Job);
      [reflexivity|].
    induction (Z.to_nat nworkers) as [|k IH]; [reflexivity | exact IH].
  - intros Hin. apply elem_of_replicate in Hin as [? _]. discriminate.
  - apply length_replicate.
Qed.

Lemma front_lt {A : Type} (c : chan A) (x : A) :
  front c = Some x -> taken c < length (sent c).
Proof. apply lookup_lt_Some. Qed.

Lemma drained_spec {A : Type} (c : chan A) :
  drained c = true <-> closed c = true /\ length (sent c) <= taken c.
Proof. unfold drained. rewrite andb_true_iff, Nat.leb_le. reflexivity. Qed.

Lemma elem_of_insert_inv (ws : list worker_state) (i : nat)
      (w x : worker_state) :
  x ∈ <[i := w]> ws -> x = w \/ x ∈ ws.
Proof.
  intros Hx. apply list_elem_of_lookup in Hx as [j Hj].
  destruct (decide (i = j)) as [->|Hne].
  - destruct (decide (j < length ws)) as [Hlt|Hge].
    + rewrite list_lookup_insert_eq in Hj by exact Hlt. left. congruence.
    + rewrite list_insert_ge in Hj by lia. right.
      eapply list_elem_of_lookup_2, Hj.
  - rewrite list_lookup_insert_ne in Hj by exact Hne. right.
    eapply list_elem_of_lookup_2, Hj.
Qed.

Lemma invariant_step (s s' : pool) :
  invariant s -> step s s' -> invariant s'.
Proof.
  intros [Hcj Hcr Hsj Hmain Htj Htr Hurls Hret Hclo Hws] Hstep.
  inversion Hstep as
    [ url rest n s0 Hat Hline
    | url rest n job s0 Hat Hline Hcan
    | n s0 Hat
    | n s0 Hat
    | i job s0 Hi Hfront
    | i job http s0 Hi Hcan
    | i s0 Hi Hdr
    | s0 Hwait Hall Hopen
    | n r s0 Hat Hfront
    | n s0 Hat Hdr ]; subst s0 s'; clear Hstep.
  - (* main skips a blank line *)
    rewrite Hat in Hmain. destruct Hmain as (Hc & Hcr' & Hsend & Hlen & Hn).
    constructor; simpl; try assumption.
    simpl in Hsend, Hlen. rewrite Hline in Hsend.
    repeat split; try assumption; lia.
  - (* main sends a job *)
    rewrite Hat in Hmain. destruct Hmain as (Hc & Hcr' & Hsend & Hlen & Hn).
    simpl in Hsend, Hlen. rewrite Hline in Hsend.
    constructor; simpl; try assumption.
    + rewrite length_app. simpl. lia.
    + rewrite length_app, <- app_assoc. simpl.
      repeat split; try assumption; lia.
    + rewrite length_app. lia.
    + rewrite take_app_le by exact Htj. exact Hurls.
    + intros Hin. apply Hret, drained_spec in Hin as [Hin _]. congruence.
  - (* main closes the job channel *)
    rewrite Hat in Hmain. destruct Hmain as (Hc & Hcr' & Hsend & Hlen & Hn).
    simpl in Hsend. rewrite app_nil_r in Hsend.
    constructor; simpl; try assumption.
    + repeat split; [symmetry; exact Hsend | exact Hn].
    + intros Hin. apply Hret, drained_spec in Hin as [Hin _]. congruence.
  - (* main gets past the output file *)
    rewrite Hat in Hmain.
    constructor; simpl; assumption.
  - (* a worker takes a job *)
    pose proof (front_lt _ _ Hfront) as Hlt.
    destruct (busy_insert _ i _ (Processing job) Hi) as (l1 & l2 & E1 & E2).
    simpl in E1, E2.
    constructor; simpl; try assumption.
    + rewrite (take_S_r _ _ _ Hfront), map_app, E2. rewrite E1 in Hurls.
      simpl. rewrite <- Hurls, !map_app. simpl.
      rewrite <- Permutation_middle.
      rewrite (Permutation_app_comm _ [Job_URL job]). simpl.
      rewrite <- Permutation_middle. reflexivity.
    + intros Hin. apply elem_of_insert_inv in Hin as [Hin|Hin];
        [discriminate|].
      apply Hret, drained_spec in Hin as [_ Hin]. lia.
    + intros Hc. pose proof (returned_at _ _ _ (Hclo Hc) Hi). discriminate.
    + rewrite length_insert. exact Hws.
  - (* a worker sends a result *)
    destruct (busy_insert _ i _ Ranging Hi) as (l1 & l2 & E1 & E2).
    simpl in E1, E2.
    constructor; simpl; try assumption.
    + destruct (main_at s) as [rest n|n|n|n]; simpl in *;
        try exact Hmain.
      destruct Hmain as (_ & _ & _ & Hmain).
      apply drained_spec in Hmain as [Hmain _].
      pose proof (returned_at _ _ _ (Hclo Hmain) Hi). discriminate.
    + rewrite length_app. simpl. lia.
    + rewrite E2. rewrite E1 in Hurls. rewrite <- Hurls, !map_app. simpl.
      rewrite process_URL. symmetry. apply Permutation_move.
    + intros Hin. apply elem_of_insert_inv in Hin as [Hin|Hin];
        [discriminate | apply Hret, Hin].
    + intros Hc. pose proof (returned_at _ _ _ (Hclo Hc) Hi). discriminate.
    + rewrite length_insert. exact Hws.
  - (* a worker returns *)
    destruct (busy_insert _ i _ Returned Hi) as (l1 & l2 & E1 & E2).
    simpl in E1, E2.
    constructor; simpl; try assumption.
    + rewrite E2, <- E1. exact Hurls.
    + intros _. exact Hdr.
    + intros Hc. pose proof (returned_at _ _ _ (Hclo Hc) Hi). discriminate.
    + rewrite length_insert. exact Hws.
  - (* the waiting goroutine closes the result channel *)
    constructor; simpl; try assumption.
    + destruct (main_at s) as [rest n|n|n|n]; simpl in *;
        try discriminate; try exact Hmain.
      destruct Hmain as (_ & _ & _ & Hmain).
      apply drained_spec in Hmain as [Hmain _]. congruence.
    + intros _. exact Hall.
  - (* main receives a result *)
    pose proof (front_lt _ _ Hfront) as Hlt.
    rewrite Hat in Hmain.
    constructor; simpl; try assumption.
    rewrite Hat. exact Hmain.
  - (* main leaves the loop over the results *)
    rewrite Hat in Hmain. destruct Hmain as (Hc & Hsend & Hn).
    constructor; simpl; try assumption.
    repeat split; assumption.
Qed.

(** A completed run with at least one worker has sent and received one
    result per job. *)
Lemma invariant_completed (s : pool) (n : Z) :
  (1 <= nworkers)%Z ->
  invariant s ->
  main_at s = Completed n ->
  map URL (sent (results s)) ≡ₚ map Job_URL (send_jobs lines0)
  /\ taken (results s) = length (sent (results s))
  /\ n = Z.of_nat (length (send_jobs lines0)).
Proof.
  intros Hn [Hcj Hcr Hsj Hmain Htj Htr Hurls Hret Hclo Hws] Hat.
  rewrite Hat in Hmain. destruct Hmain as (Hc & Hsent & Hcount & Hdr).
  apply drained_spec in Hdr as [Hcl Hdr].
  pose proof (Hclo Hcl) as Hall.
  destruct (workers s) as [|w ws] eqn:Ews; [simpl in Hws; lia|].
  assert (Hw : w = Returned).
  { apply (returned_at (w :: ws) 0 w Hall). reflexivity. }
  subst w.
  assert (Hdj : drained (jobs s) = true) by (apply Hret; left).
  apply drained_spec in Hdj as [_ Hdj].
  rewrite (all_returned_busy _ Hall), app_nil_r in Hurls.
  rewrite take_ge in Hurls by exact Hdj.
  rewrite Hsent in Hurls, Hcount.
  repeat split; [exact Hurls | lia | exact Hcount].
Qed.

Lemma weight_insert (ws : list worker_state) (i : nat)
      (w0 w1 : worker_state) :
  ws !! i = Some w0 ->
  sum_list (map weight_worker (<[i := w1]> ws)) + weight_worker w0
  = sum_list (map weight_worker ws) + weight_worker w1.
Proof.
  revert i. induction ws as [|w ws IH]; intros [|i] Hi; simpl in *;
    try discriminate.
  - injection Hi as ->. lia.
  - specialize (IH i Hi). lia.
Qed.

Lemma step_weight (s s' : pool) : step s s' -> weight s' < weight s.
Proof.
  intros Hstep. unfold weight.
  inversion Hstep as
    [ url rest n s0 Hat Hline
    | url rest n job s0 Hat Hline Hcan
    | n s0 Hat
    | n s0 Hat
    | i job s0 Hi Hfront
    | i job http s0 Hi Hcan
    | i s0 Hi Hdr
    | s0 Hwait Hall Hopen
    | n r s0 Hat Hfront
    | n s0 Hat Hdr ]; subst s0 s'; clear Hstep; simpl;
    try rewrite Hat; simpl; unfold buffered; simpl;
    try rewrite length_app; simpl.
  - lia.
  - lia.
  - lia.
  - lia.
  - pose proof (front_lt _ _ Hfront).
    pose proof (weight_insert _ i _ (Processing job) Hi). simpl in *. lia.
  - pose proof (weight_insert _ i _ Ranging Hi). simpl in *. lia.
  - pose proof (weight_insert _ i _ Returned Hi). simpl in *. lia.
  - rewrite Hopen. lia.
  - pose proof (front_lt _ _ Hfront). lia.
  - lia.
Qed.

Lemma not_all_returned (ws : list worker_state) :
  all_returned ws = false ->
  exists i, ws !! i = Some Ranging
            \/ exists job, ws !! i = Some (Processing job).
Proof.
  induction ws as [|w ws IH]; simpl; [discriminate|].
  destruct w as [|job|]; simpl.
  - intros _. exists 0. left. reflexivity.
  - intros _. exists 0. right. exists job. reflexivity.
  - intros Hall. destruct (IH Hall) as [i Hi]. exists (S i). exact Hi.
Qed.

Lemma busy_lookup (ws : list worker_state) (i : nat) (job : Job) :
  ws !! i = Some (Processing job) -> 0 < length (busy ws).
Proof.
  intros Hi.
  destruct (busy_insert ws i _ Ranging Hi) as (l1 & l2 & E & _).
  rewrite E, length_app. simpl. lia.
Qed.

(** A state that is not completed can take a step. *)
Lemma invariant_progress (s : pool) :
  invariant s ->
  (exists n, main_at s = Completed n) \/ exists s', step s s'.
Proof.
  intros [Hcj Hcr Hsj Hmain Htj Htr Hurls Hret Hclo Hws].
  destruct (main_at s) as [[|url rest] n|n|n|n] eqn:Hat.
  - right. eexists. eapply main_closes, Hat.
  - right. destruct Hmain as (Hc & Hcr' & Hsend & Hlen & Hn).
    destruct (job_of_line url) as [job|] eqn:Hline.
    + eexists. eapply main_sends; [exact Hat | exact Hline |].
      unfold can_send. rewrite Hc. simpl. apply Nat.ltb_lt.
      simpl in Hlen. lia.
    + eexists. eapply main_skips; [exact Hat | exact Hline].
  - right. eexists. eapply main_opens, Hat.
  - right. destruct Hmain as (Hc & Hsend & Hn).
    destruct (front (results s)) as [r|] eqn:Hfront.
    { eexists. eapply main_receives; [exact Hat | exact Hfront]. }
    apply lookup_ge_None_1 in Hfront.
    destruct (closed (results s)) eqn:Hcl.
    { eexists. eapply main_completes; [exact Hat|].
      apply drained_spec. split; [exact Hcl | exact Hfront]. }
    destruct (all_returned (workers s)) eqn:Hall.
    { eexists. eapply waiter_closes; [|exact Hall | exact Hcl].
      rewrite Hat. reflexivity. }
    destruct (not_all_returned _ Hall) as [i [Hi | [job Hi]]].
    + destruct (front (jobs s)) as [job|] eqn:Hfj.
      * eexists. eapply worker_takes; [exact Hi | exact Hfj].
      * apply lookup_ge_None_1 in Hfj.
        eexists. eapply worker_returns; [exact Hi|].
        apply drained_spec. split; [exact Hc | exact Hfj].
    + eexists. eapply (worker_sends _ _ _ i job (fun _ => Failed ""));
        [exact Hi|].
      unfold can_send. rewrite Hcl. simpl. apply Nat.ltb_lt.
      apply Permutation_length in Hurls.
      rewrite length_app, !length_map, length_take in Hurls.
      pose proof (busy_lookup _ _ _ Hi). lia.
  - left. eauto.
Qed.

Lemma invariant_steps (s : pool) :
  steps (start lines0 nworkers) s -> invariant s.
Proof.
  intros Hs. remember (start lines0 nworkers) as s0 eqn:E.
  induction Hs as [|s1 s2 s3 _ IH Hstep]; subst;
    [apply invariant_start | eapply invariant_step; eauto].
Qed.

Lemma steps_trans (s1 s2 s3 : pool) :
  steps s1 s2 -> steps s2 s3 -> steps s1 s3.
Proof.
  intros H12 H23. induction H23 as [|s2 s3 s4 _ IH Hstep];
    [exact H12 | eapply steps_step; [apply IH, H12 | exact Hstep]].
Qed.



(** From every state of the pool, some run goes on to completion. *)
Lemma invariant_completes (s : pool) :
  invariant s ->
  exists s' n, steps s s' /\ main_at s' = Completed n.
Proof.
  remember (weight s) as w eqn:Hw. revert s Hw.
  induction w as [w IH] using lt_wf_ind. intros s -> Hinv.
  destruct (invariant_progress s Hinv) as [[n Hn] | [s1 Hstep]].
  - exists s, n. split; [apply steps_refl | exact Hn].
  - destruct (IH (weight s1) (step_weight _ _ Hstep) s1 eq_refl
                 (invariant_step _ _ Hinv Hstep)) as (s2 & n & Hs & Hn).
    exists s2, n. split; [|exact Hn].
    eapply steps_trans; [|exact Hs].
    eapply steps_step; [apply steps_refl | exact Hstep].
Qed.

End Pool.

(** The counters of the loop over the results. *)
Lemma collect_counts (outFile : option string) (c : collected)
      (rs : list Result) :
  matchCount (collect outFile c rs) = (matchCount c + Spec.count Spec.is_match rs)%Z
  /\ errorCount (collect outFile c rs)
     = (errorCount c + Spec.count Spec.is_error rs)%Z.
Proof.
  revert c. unfold Spec.count.
  induction rs as [|r rs IH]; intros c; [simpl; lia|].
  change (collect outFile c (r :: rs))
    with (collect outFile (collect_one outFile c r) rs).
  destruct (IH (collect_one outFile c r)) as [Hm He]. rewrite Hm, He.
  simpl. unfold collect_one, Spec.is_match, Spec.is_error.
  destruct (Err r); simpl; [lia|]. destruct (Match r); simpl; lia.
Qed.

Lemma count_partition (rs : list Result) :
  (Spec.count Spec.is_match rs + Spec.count Spec.is_error rs
   + Spec.count Spec.is_nonmatch rs)%Z
  = Z.of_nat (length rs).
Proof.
  unfold Spec.count. induction rs as [|r rs IH]; simpl; [reflexivity|].
  unfold Spec.is_match at 1, Spec.is_error at 1, Spec.is_nonmatch at 1.
  destruct (Err r); simpl; [lia|]. destruct (Match r); simpl; lia.
Qed.

(** *** The process, with its exit at the output file *)

Section Process.

Context `{Codecs}.

Variable baseIcon host model : string.
Variable args : Arguments.

Local Abbreviation step := (step baseIcon host model).
Local Abbreviation steps := (steps baseIcon host model).
Local Abbreviation move := (move baseIcon host model args).
Local Abbreviation moves := (moves baseIcon host model args).

(** While the process runs, its moves are the steps of its goroutines. *)
Lemma steps_moves (s0 s : pool) :
  steps s0 s -> moves (Running s0) (Running s).
Proof.
  induction 1 as [s|s1 s2 s3 _ IH Hstep]; [apply moves_refl|].
  eapply moves_move; [exact IH | apply goroutine_steps, Hstep].
Qed.

(** The process exits in one way only: with status 1, from a state its
    goroutines have reached in which [main] is at the output file, and
    under [args.Output != ""]. *)
Lemma moves_inv (s0 : pool) (p : program) :
  moves (Running s0) p ->
  match p with
  | Running s => steps s0 s
  | Exited status s =>
      status = 1%Z /\ steps s0 s
      /\ (exists n, main_at s = Opening n)
      /\ Output args <> EmptyString
  end.
Proof.
  intros Hp. remember (Running s0) as p0 eqn:E.
  induction Hp as [p|p1 p2 p3 _ IH Hmove]; subst.
  - apply steps_refl.
  - specialize (IH eq_refl).
    inversion Hmove as [s s' Hstep|n s Hat Hout]; subst.
    + eapply steps_step; [exact IH | exact Hstep].
    + repeat split; [exact IH | eexists; exact Hat | exact Hout].
Qed.

Lemma move_weight (p p' : program) :
  move p p' -> program_weight p' < program_weight p.
Proof.
  intros Hmove. inversion Hmove as [s s' Hstep|n s Hat Hout]; subst; simpl.
  - pose proof (step_weight baseIcon host model _ _ Hstep). lia.
  - lia.
Qed.

End Process.

(** The results sent so far are those of jobs sent, each at most once. *)
Lemma invariant_results_of_jobs (lines : list string) (nworkers : Z)
      (s : pool) :
  invariant lines nworkers s ->
  exists rest,
    map URL (sent (results s)) ++ rest ≡ₚ map Job_URL (sent (jobs s)).
Proof.
  intros [Hcj Hcr Hsj Hmain Htj Htr Hurls Hret Hclo Hws].
  exists (map Job_URL (busy (workers s))
          ++ map Job_URL (drop (taken (jobs s)) (sent (jobs s)))).
  rewrite app_assoc, Hurls, <- map_app, take_drop. reflexivity.
Qed.

(** The run of [example_unwritable] that ends at the output file before
    any worker has taken the job. *)
Lemma example_dispatched_exits :
  moves (H := Reference.codecs) "" "http://localhost:11434" "gemma3:4b"
        example_unwritable
        (Running (start ["a.com"] 1)) (Exited 1 example_dispatched).
Proof.
  eapply moves_move; [apply steps_moves|].
  - eapply steps_step; [eapply steps_step; [apply steps_refl|]|].
    + eapply (main_sends _ _ _ "a.com" [] 0
                         {| Job_URL := "a.com/favicon.ico" |});
        reflexivity.
    + eapply main_closes. reflexivity.
  - eapply (main_exits _ _ _ _ 1); [reflexivity | discriminate].
Qed.

(** C1.  With at least one worker, every run of the process in which
    [main] gets to the end of its loop over the results has put on the
    result channel, and [main] has received, exactly one result per job
    sent, result and job having the same URL; the counts of matches, of
    errors and of the other results add up to the number of jobs.  At each
    point of a run the process is completed, has exited, or can move, and
    every run ends.  The process exits in one way only: with status 1,
    under [args.Output != ""], when [main] has sent all the jobs and closed
    the job channel and is at the creation of the output file; the results
    sent by then are those of jobs sent, each at most once, and some may be
    missing.  Without an output file the process never exits there, and in
    every case some run completes. *)
Theorem pool_results_unless_exit `{Codecs} (baseIcon host model : string)
        (args : Arguments) (lines : list string) (nworkers : Z) :
  (1 <= nworkers)%Z ->
  let run := moves baseIcon host model args
                   (Running (start lines nworkers)) in
  (forall s n,
      run (Running s) -> main_at s = Completed n ->
      map URL (sent (results s)) ≡ₚ map Job_URL (send_jobs lines)
      /\ length (sent (results s)) = length (send_jobs lines)
      /\ taken (results s) = length (sent (results s))
      /\ n = Z.of_nat (length (send_jobs lines))
      /\ (forall outFile c0,
             let c := collect outFile c0 (sent (results s)) in
             (matchCount c - matchCount c0) + (errorCount c - errorCount c0)
             + Spec.count Spec.is_nonmatch (sent (results s)) = n)%Z)
  /\ (forall p, run p ->
        (exists s n, p = Running s /\ main_at s = Completed n)
        \/ (exists s, p = Exited 1 s)
        \/ exists p', move baseIcon host model args p p')
  /\ (forall p p', move baseIcon host model args p p' ->
                   program_weight p' < program_weight p)
  /\ (forall status s,
        run (Exited status s) ->
        status = 1%Z
        /\ Output args <> EmptyString
        /\ main_at s = Opening (Z.of_nat (length (send_jobs lines)))
        /\ closed (jobs s) = true
        /\ sent (jobs s) = send_jobs lines
        /\ exists rest,
             map URL (sent (results s)) ++ rest
             ≡ₚ map Job_URL (send_jobs lines))
  /\ (Output args = EmptyString ->
      forall p, run p -> exists s, p = Running s)
  /\ (exists s n, run (Running s) /\ main_at s = Completed n).
Proof.
  intros Hn run.
  assert (Hinv : forall s, run (Running s) -> invariant lines nworkers s).
  { intros s Hs. eapply invariant_steps.
    exact (moves_inv baseIcon host model args _ _ Hs). }
  split; [|split; [|split; [|split; [|split]]]].
  - intros s n Hs Hat.
    destruct (invariant_completed lines nworkers s n Hn (Hinv s Hs) Hat)
      as (Hp & Ht & Hc).
    pose proof (Permutation_length Hp) as Hl. rewrite !length_map in Hl.
    repeat split; [exact Hp | congruence | congruence | exact Hc |].
    intros outFile c0 c. unfold c.
    destruct (collect_counts outFile c0 (sent (results s))) as [-> ->].
    pose proof (count_partition (sent (results s))). lia.
  - intros [s|status s] Hp.
    + destruct (invariant_progress baseIcon host model lines nworkers s
                                   (Hinv s Hp)) as [[n Hat]|[s' Hstep]].
      * left. exists s, n. split; [reflexivity | exact Hat].
      * right. right. exists (Running s'). apply goroutine_steps, Hstep.
    + right. left.
      destruct (moves_inv baseIcon host model args _ _ Hp) as [-> _].
      exists s. reflexivity.
  - apply move_weight.
  - intros status s Hp.
    destruct (moves_inv baseIcon host model args _ _ Hp)
      as (-> & Hs & [n Hat] & Hout).
    pose proof (invariant_steps baseIcon host model lines nworkers s Hs)
      as Hi.
    destruct (invariant_results_of_jobs lines nworkers s Hi) as [rest Hrest].
    destruct Hi as [Hcj Hcr Hsj Hmain Htj Htr Hurls Hret Hclo Hws].
    rewrite Hat in Hmain. destruct Hmain as (Hc & Hsent & Hcount).
    rewrite Hsent in Hrest, Hcount.
    repeat split; [exact Hout | rewrite Hat, Hcount; reflexivity
                  | exact Hc | exact Hsent | exists rest; exact Hrest].
  - intros Hnone [s|status s] Hp; [exists s; reflexivity|].
    destruct (moves_inv baseIcon host model args _ _ Hp)
      as (_ & _ & _ & Hout).
    contradiction.
  - destruct (invariant_completes baseIcon host model lines nworkers _
                (invariant_start lines nworkers)) as (s & n & Hs & Hat).
    exists s, n. split; [apply steps_moves, Hs | exact Hat].
Qed.

Lemma pool_results_unless_exit_witness :
  (exists s n,
      moves (H := Reference.codecs) "" "http://localhost:11434" "gemma3:4b"
            example_unwritable (Running (start ["a.com"; ""; "b.com/"] 2))
            (Running s)
      /\ main_at s = Completed n)
  /\ main_at example_dispatched = Opening 1
  /\ exists rest,
       map URL (sent (results example_dispatched)) ++ rest
       ≡ₚ map Job_URL (send_jobs ["a.com"]).
Proof.
  split.
  - destruct (pool_results_unless_exit
                (H := Reference.codecs) "" "http://localhost:11434"
                "gemma3:4b" example_unwritable ["a.com"; ""; "b.com/"] 2)
      as (_ & _ & _ & _ & _ & Hex); [lia | exact Hex].
  - destruct (pool_results_unless_exit
                (H := Reference.codecs) "" "http://localhost:11434"
                "gemma3:4b" example_unwritable ["a.com"] 1)
      as (_ & _ & _ & Hexit & _); [lia|].
    destruct (Hexit 1%Z example_dispatched example_dispatched_exits)
      as (_ & _ & Hat & _ & _ & Hrest).
    split; [exact Hat | exact Hrest].
Defined.

(** With the output file asked for and not creatable, a run on one URL
    with one worker ends with status 1 when the job is sent and no result
    is: the process has exited, nothing moves any more, and the job has no
    result. *)
Lemma exit_leaves_job_without_result :
  moves (H := Reference.codecs) "" "http://localhost:11434" "gemma3:4b"
        example_unwritable
        (Running (start ["a.com"] (Workers example_unwritable)))
        (Exited 1 example_dispatched)
  /\ (1 <= Workers example_unwritable)%Z
  /\ send_jobs ["a.com"] = [ {| Job_URL := "a.com/favicon.ico" |} ]
  /\ sent (jobs example_dispatched) = send_jobs ["a.com"]
  /\ sent (results example_dispatched) = []
  /\ (forall p,
        ~ move (H := Reference.codecs) "" "http://localhost:11434"
               "gemma3:4b" example_unwritable
               (Exited 1 example_dispatched) p).
Proof.
  split; [exact example_dispatched_exits|].
  split; [simpl; lia|].
  repeat split.
  intros p Hmove. inversion Hmove.
Qed.

(** ** A candidate that is not served *)


Lemma example_waiting_reached :
  steps (H := Reference.codecs) "" "http://localhost:11434" "gemma3:4b"
        (start ["c.com/logo.png"] 1) example_waiting.
Proof.
  eapply steps_step; [eapply steps_step; [apply steps_refl|]|].
  - eapply (main_sends _ _ _ "c.com/logo.png" [] 0
                       {| Job_URL := "c.com/logo.png" |});
      reflexivity.
  - eapply (worker_takes _ _ _ 0 {| Job_URL := "c.com/logo.png" |});
      reflexivity.
Qed.


(** Without a worker the run completes as well, with no result at all: the
    bound on the number of workers is needed. *)
Example pool_without_workers :
  exists s,
    steps (H := Reference.codecs) "" "http://localhost:11434" "gemma3:4b"
          (start ["a.com"] 0) s
    /\ main_at s = Completed 1
    /\ sent (results s) = []
    /\ send_jobs ["a.com"] = [ {| Job_URL := "a.com/favicon.ico" |} ].
Proof.
  eexists. split.
  { eapply steps_step; [eapply steps_step; [eapply steps_step;
      [eapply steps_step; [eapply steps_step; [apply steps_refl|]|]|]|]|].
    - eapply (main_sends _ _ _ "a.com" [] 0
                         {| Job_URL := "a.com/favicon.ico" |});
        reflexivity.
    - eapply main_closes. reflexivity.
    - eapply main_opens. reflexivity.
    - eapply waiter_closes; reflexivity.
    - eapply main_completes; reflexivity. }
  repeat split.
Qed.

(** * Further properties of the code *)

(** ** The model-availability check, whatever the host answers *)

(** X1.  The check passes only in one way: the listing was answered with
    status 200, its body decoded, and one of its names passes the test of
    the loop.  A failed request, any other status, a body that does not
    decode or a listing without such a name all give an error. *)
Theorem check_passes_iff `{Codecs} (o : Client) :
  CheckModelExists o = None
  <-> exists body resp m,
      HTTPClient o (tags_request o) = Answered 200 body
      /\ json_Unmarshal_models body = Success resp
      /\ m ∈ Models resp
      /\ model_matches (Name m) (Client_Model o) = true.
Proof.
  split.
  - unfold CheckModelExists.
    destruct (HTTPClient o (tags_request o)) as [err|status body] eqn:Hresp;
      [discriminate|].
    destruct (status =? 200)%Z eqn:Hs; simpl; [|discriminate].
    apply Z.eqb_eq in Hs. subst status.
    destruct (json_Unmarshal_models body) as [resp|err] eqn:Hjson;
      [|discriminate].
    destruct (find_model (Client_Model o) (Models resp) [])
      as [found names] eqn:Hfind.
    destruct found; simpl; [|discriminate]. intros _.
    assert (Hf : fst (find_model (Client_Model o) (Models resp) []) = true)
      by (rewrite Hfind; reflexivity).
    apply find_model_spec in Hf as [m [Hin Hm]].
    exists body, resp, m. auto.
  - intros (body & resp & m & Hresp & Hjson & Hin & Hm).
    apply (check_answered o body resp Hresp Hjson), find_model_spec.
    eauto.
Qed.

Lemma find_model_names (configured : string) (models : list Ollama.Model)
      (acc : list string) :
  fst (find_model configured models acc) = false ->
  snd (find_model configured models acc) = acc ++ map Name models.
Proof.
  revert acc. induction models as [|m rest IH]; intros acc; simpl.
  - intros _. rewrite app_nil_r. reflexivity.
  - destruct (model_matches (Name m) configured); simpl; [discriminate|].
    intros Hf. rewrite (IH _ Hf), <- app_assoc. reflexivity.
Qed.

(** X2.  When no listed name passes the test, the error names the model
    asked for and lists every available name, in the order of the
    listing. *)
Theorem missing_model_lists_all `{Codecs} (o : Client) (body : string)
        (resp : ModelsResponse) :
  HTTPClient o (tags_request o) = Answered 200 body ->
  json_Unmarshal_models body = Success resp ->
  (forall m, m ∈ Models resp ->
             model_matches (Name m) (Client_Model o) = false) ->
  CheckModelExists o
  = Some ("model '" +:+ Client_Model o +:+ "' not found. Available models: "
          +:+ fmt_v (map Name (Models resp))).
Proof.
  intros Hresp Hjson Hnone. unfold CheckModelExists.
  rewrite Hresp, Hjson. simpl.
  assert (Hf : fst (find_model (Client_Model o) (Models resp) []) = false).
  { destruct (fst (find_model _ _ _)) eqn:E; [|reflexivity].
    apply find_model_spec in E as [m [Hin Hm]].
    rewrite (Hnone m Hin) in Hm. discriminate. }
  pose proof (find_model_names _ _ _ Hf) as Hn.
  destruct (find_model (Client_Model o) (Models resp) []) as [found names].
  simpl in Hf, Hn. subst found names. reflexivity.
Qed.

Lemma missing_model_lists_all_witness :
  CheckModelExists
    (Reference.always
       (Answered 200
          (unq "{'models':[{'name':'llava:7b'},{'name':'moondream:latest'}]}"))
       "gemma3:4b")
  = Some "model 'gemma3:4b' not found. Available models: [llava:7b moondream:latest]".
Proof.
  pose (named n := {| Name := n; Model_Model := ""; ModifiedAt := "";
                      Size := 0; Digest := "";
                      Details := Reference.no_details |}).
  refine (@missing_model_lists_all Reference.codecs _
            (unq "{'models':[{'name':'llava:7b'},{'name':'moondream:latest'}]}")
            {| Models := [named "llava:7b"; named "moondream:latest"] |}
            _ _ _).
  - reflexivity.
  - vm_compute. reflexivity.
  - intros m Hm. simpl in Hm.
    apply elem_of_cons in Hm as [-> | Hm]; [vm_compute; reflexivity|].
    apply elem_of_cons in Hm as [-> | Hm]; [vm_compute; reflexivity|].
    inversion Hm.
Defined.

(** ** What a download can give *)

Lemma encode_length (src : string) :
  String.length (Base64.EncodeToString src)
  = 4 * ((String.length src + 2) / 3).
Proof.
  remember (String.length src) as n eqn:Hn. revert src Hn.
  induction n as [n IH] using lt_wf_ind. intros src ->.
  destruct src as [|a [|b [|c rest]]]; try reflexivity.
  cbn [Base64.EncodeToString String.length].
  rewrite (IH (String.length rest)); [|simpl; lia | reflexivity].
  replace (S (S (S (String.length rest))) + 2)
    with ((String.length rest + 2) + 1 * 3) by lia.
  rewrite Nat.div_add by lia. lia.
Qed.

Lemma encode_injective (a b : string) :
  Base64.EncodeToString a = Base64.EncodeToString b -> a = b.
Proof.
  intros E. pose proof (Base64Facts.decode_encode a) as Ha.
  rewrite E, Base64Facts.decode_encode in Ha. congruence.
Qed.

(** X3.  A download succeeds only in one way: the request was answered
    with status 200, the body decoded as an image, and the payload is the
    base64 text of the body itself (format png) or of what the PNG encoder
    made of the picture (any other format).  So every payload decodes as
    base64, and its length is a multiple of four. *)
Theorem download_success_only `{Codecs} (o : Client) (url payload : string) :
  DownloadImageAsBase64 o url = Success payload ->
  exists data img format sent,
    HTTPClient o (image_request url) = Answered 200 data
    /\ image_Decode data = Success (img, format)
    /\ ((format = "png" /\ sent = data)
        \/ (format <> "png" /\ png_Encode img = Success sent))
    /\ payload = Base64.EncodeToString sent
    /\ Base64.DecodeString payload = Some sent
    /\ String.length payload = 4 * ((String.length sent + 2) / 3).
Proof.
  unfold DownloadImageAsBase64.
  destruct (HTTPClient o (image_request url)) as [err|status data] eqn:Hresp;
    [discriminate|].
  destruct (status =? 200)%Z eqn:Hs; simpl; [|discriminate].
  apply Z.eqb_eq in Hs. subst status.
  destruct (image_Decode data) as [[img format]|err] eqn:Hdec;
    [|discriminate].
  destruct (String.eqb format "png") eqn:Hfmt.
  - apply String.eqb_eq in Hfmt. intros [= <-].
    exists data, img, format, data.
    repeat split; auto using Base64Facts.decode_encode, encode_length.
  - apply String.eqb_neq in Hfmt.
    destruct (png_Encode img) as [buf|err] eqn:Henc; [|discriminate].
    intros [= <-]. exists data, img, format, buf.
    repeat split; auto using Base64Facts.decode_encode, encode_length.
Qed.

Lemma download_success_only_witness :
  exists sent,
    Base64.DecodeString
      (Base64.EncodeToString (Reference.png_signature +:+ "GIF89a"))
    = Some sent.
Proof.
  destruct (@download_success_only Reference.codecs
              (Reference.always (Answered 200 "GIF89a") "gemma3:4b")
              "a.com/favicon.ico"
              (Base64.EncodeToString (Reference.png_signature +:+ "GIF89a")))
    as (data & img & format & sent & _ & _ & _ & _ & Hd & _);
    [vm_compute; reflexivity|].
  exists sent. exact Hd.
Defined.

(** X4.  The payloads of two files that both decode as PNG are equal only
    if the files are equal, byte for byte. *)
Theorem png_payload_determines_file `{Codecs} (o1 o2 : Client)
        (url1 url2 data1 data2 : string) (img1 img2 : Image) :
  HTTPClient o1 (image_request url1) = Answered 200 data1 ->
  HTTPClient o2 (image_request url2) = Answered 200 data2 ->
  image_Decode data1 = Success (img1, "png") ->
  image_Decode data2 = Success (img2, "png") ->
  DownloadImageAsBase64 o1 url1 = DownloadImageAsBase64 o2 url2 ->
  data1 = data2.
Proof.
  intros H1 H2 D1 D2.
  rewrite (download_answered o1 url1 data1 H1), D1.
  rewrite (download_answered o2 url2 data2 H2), D2. simpl.
  intros [= E]. apply encode_injective, E.
Qed.

Lemma png_payload_determines_file_witness :
  Reference.png_signature +:+ "IHDR" = Reference.png_signature +:+ "IHDR".
Proof.
  apply (@png_payload_determines_file Reference.codecs
           (Reference.always
              (Answered 200 (Reference.png_signature +:+ "IHDR")) "gemma3:4b")
           (Reference.always
              (Answered 200 (Reference.png_signature +:+ "IHDR")) "llava:7b")
           "a.com/favicon.ico" "b.com/logo.png"
           (Reference.png_signature +:+ "IHDR")
           (Reference.png_signature +:+ "IHDR")
           (Reference.png_signature +:+ "IHDR")
           (Reference.png_signature +:+ "IHDR"));
    reflexivity.
Defined.

(** ** What a worker sends *)

(** X5.  The result a worker sends for a job carries the URL of the job;
    it has no match when it has an error; and it has a match only if the
    image was fetched and normalised and the inference host answered with
    a text that has ["Yes"] in it. *)
Theorem match_needs_Yes `{Codecs} (o : Client) (baseIcon : string)
        (job : Job) :
  let r := process o baseIcon job in
  URL r = Job_URL job
  /\ (Err r <> None -> Match r = false)
  /\ (Match r = true ->
      exists targetIcon status body,
        DownloadImageAsBase64 o (Job_URL job) = Success targetIcon
        /\ HTTPClient o (chat_request o baseIcon targetIcon)
           = Answered status body
        /\ Contains (Spec.answer body) "Yes" = true).
Proof.
  intros r. unfold r, process.
  destruct (DownloadImageAsBase64 o (Job_URL job)) as [targetIcon|err]
    eqn:Hdl; simpl.
  - unfold CompareFaviconsChatAPI.
    destruct (HTTPClient o (chat_request o baseIcon targetIcon))
      as [err|status body] eqn:Hchat; simpl.
    + split; [reflexivity|]. split; [reflexivity | discriminate].
    + split; [reflexivity|]. split; [congruence|]. intros Hm.
      exists targetIcon, status, body.
      split; [reflexivity|]. split; [exact Hchat|].
      rewrite read_stream_spec, sapp_nil_l in Hm. exact Hm.
  - split; [reflexivity|]. split; [reflexivity | discriminate].
Qed.

(** ** The loop over the lines, piece by piece *)

Section StreamPieces.

Context `{Codecs}.

Lemma records_app (l1 l2 : list string) :
  Spec.records (l1 ++ l2) = Spec.records l1 ++ Spec.records l2.
Proof.
  unfold Spec.records. rewrite map_app, List.filter_app, omap_app.
  reflexivity.
Qed.

Lemma upto_done_app (rs1 rs2 : list Json.object) :
  Forall (fun r => chunk_done r = false) rs1 ->
  Spec.upto_done (rs1 ++ rs2) = rs1 ++ Spec.upto_done rs2.
Proof.
  induction 1 as [|r rs Hr _ IH]; simpl; [reflexivity|].
  rewrite Hr, IH. reflexivity.
Qed.

End StreamPieces.

(** X6.  The loop only ever adds to the text it has: started with some
    text it gives that text followed by what it gives started with none.
    And as long as no decoded line has [done] true, reading a body in two
    pieces, the second from where the first ended, is reading it whole. *)
Theorem read_stream_in_pieces `{Codecs} (lines1 lines2 : list string)
        (acc : string) :
  read_stream lines1 acc = acc +:+ read_stream lines1 ""
  /\ (Forall (fun r => chunk_done r = false) (Spec.records lines1) ->
      read_stream (lines1 ++ lines2) acc
      = read_stream lines2 (read_stream lines1 acc)).
Proof.
  split.
  - rewrite (read_stream_spec lines1 acc), (read_stream_spec lines1 "").
    reflexivity.
  - intros Hnone.
    rewrite (read_stream_spec (lines1 ++ lines2)), (read_stream_spec lines2),
      (read_stream_spec lines1).
    rewrite records_app, (upto_done_app _ _ Hnone), text_of_app.
    rewrite (upto_done_all _ Hnone), sapp_assoc. reflexivity.
Qed.

Lemma read_stream_in_pieces_witness :
  let first := [unq "{'message':{'content':'Ye'}}"; "NOT-JSON"] in
  let second := [unq "{'message':{'content':'s'},'done':true}"; "ignored"] in
  @read_stream Reference.codecs (first ++ second) "> "
  = @read_stream Reference.codecs second
      (@read_stream Reference.codecs first "> ").
Proof.
  intros first second.
  destruct (@read_stream_in_pieces Reference.codecs first second "> ")
    as [_ Hpieces].
  apply Hpieces. vm_compute. repeat constructor.
Defined.

(** X7.  A response in which every line is blank, fails to decode, or
    decodes to a record without a text gives the empty answer: the
    comparison returns no match and a nil error.  The empty body is such a
    response. *)
Theorem silent_response_is_no_match `{Codecs} (o : Client) (a b : string)
        (status : Z) (body : string) :
  HTTPClient o (chat_request o a b) = Answered status body ->
  Forall (fun line =>
            TrimSpace line = ""
            \/ json_Unmarshal_chunk (TrimSpace line) = None
            \/ exists chunk,
                json_Unmarshal_chunk (TrimSpace line) = Some chunk
                /\ chunk_content chunk = "")
         (Split body) ->
  read_stream (Split body) "" = ""
  /\ CompareFaviconsChatAPI o a b = (false, None).
Proof.
  intros Hresp Hsilent.
  assert (E : forall lines,
             Forall (fun line =>
                       TrimSpace line = ""
                       \/ json_Unmarshal_chunk (TrimSpace line) = None
                       \/ exists chunk,
                           json_Unmarshal_chunk (TrimSpace line) = Some chunk
                           /\ chunk_content chunk = "") lines ->
             read_stream lines "" = "").
  { induction 1 as [|line rest Hline _ IH]; simpl; [reflexivity|].
    destruct (String.eqb (TrimSpace line) "") eqn:Hb; [exact IH|].
    apply String.eqb_neq in Hb.
    destruct Hline as [Hl | [Hl | [chunk [Hl Hc]]]]; [contradiction | |].
    - rewrite Hl. exact IH.
    - rewrite Hl, Hc. simpl. destruct (chunk_done chunk); [reflexivity|].
      exact IH. }
  split; [apply E, Hsilent|].
  rewrite (compare_answered o a b status body Hresp), (E _ Hsilent).
  reflexivity.
Qed.

Lemma silent_response_is_no_match_witness :
  let body := Join [""; "  "; "NOT-JSON"; unq "{'done':false}";
                    unq "{'message':'Yes'}"] in
  CompareFaviconsChatAPI (Reference.always (Answered 200 body) "gemma3:4b")
                         "QQ==" "Qg=="
  = (false, None).
Proof.
  intros body.
  apply (@silent_response_is_no_match Reference.codecs
           (Reference.always (Answered 200 body) "gemma3:4b")
           "QQ==" "Qg==" 200 body eq_refl).
  let l := eval vm_compute in (Split body) in change (Split body) with l.
  repeat (constructor;
          [first [ left; vm_compute; reflexivity
                 | right; left; vm_compute; reflexivity
                 | right; right; eexists; split; vm_compute; reflexivity ] |]).
  constructor.
Defined.

(** ** More on the jobs sent *)

Lemma split_bytes_app_LF (p e : list ascii) :
  split_bytes (p ++ LF :: e) = split_bytes p ++ split_bytes e.
Proof.
  induction p as [|c p IH]; [reflexivity|].
  simpl. rewrite IH. destruct (char_eqb c LF); [reflexivity|].
  destruct (split_bytes_cons p) as [h [r ->]]. reflexivity.
Qed.

Lemma list_ascii_app (a b : string) :
  list_ascii_of_string (a +:+ b)
  = list_ascii_of_string a ++ list_ascii_of_string b.
Proof.
  induction a as [|c a IH]; [reflexivity|].
  rewrite sapp_cons. simpl. rewrite IH. reflexivity.
Qed.

(** X8.  The jobs of two input texts joined by a line feed are the jobs of
    the first followed by the jobs of the second: jobs follow the order of
    the lines, and a line's job does not depend on the other lines. *)
Theorem dispatched_concat (content1 content2 : string) :
  dispatched (content1 +:+ String LF content2)
  = dispatched content1 ++ dispatched content2.
Proof.
  rewrite !dispatched_bytes, list_ascii_app. simpl.
  unfold lines_bytes.
  rewrite split_bytes_app_LF, map_app, List.filter_app, map_app.
  reflexivity.
Qed.

Lemma Contains_app_r (s t sub : string) :
  Contains t sub = true -> Contains (s +:+ t) sub = true.
Proof.
  intros Ht. apply Contains_spec in Ht as [pre [post ->]].
  apply Contains_spec. exists (s +:+ pre), post.
  rewrite sapp_assoc. reflexivity.
Qed.

(** X9.  The URL of a job starts with the trimmed line it comes from,
    which is not empty; it contains ["favicon"] or ends in one of the six
    suffixes the loop tests; and the loop applied to it would change
    nothing more. *)
Theorem job_url_shape (line : string) (job : Job) :
  job_of_line line = Some job ->
  TrimSpace line <> ""
  /\ (exists tail, Job_URL job = TrimSpace line +:+ tail)
  /\ (Contains (Job_URL job) "favicon" = true
      \/ existsb (HasSuffix (Job_URL job)) Spec.image_suffixes = true)
  /\ favicon_url (Job_URL job) = Job_URL job.
Proof.
  unfold job_of_line.
  destruct (String.eqb (TrimSpace line) "") eqn:Hb; [discriminate|].
  apply String.eqb_neq in Hb. intros [= <-]. simpl.
  set (url := TrimSpace line) in *.
  split; [exact Hb|].
  assert (Hshape :
            (favicon_url url = url
             /\ (Contains url "favicon" = true
                 \/ existsb (HasSuffix url) Spec.image_suffixes = true))
            \/ (exists tail, favicon_url url = url +:+ tail
                             /\ Contains tail "favicon" = true)).
  { unfold favicon_url. simpl.
    destruct (HasSuffix url ".ico") eqn:E1; simpl; [left; auto|].
    destruct (HasSuffix url ".png") eqn:E2; simpl; [left; auto|].
    destruct (HasSuffix url ".jpg") eqn:E3; simpl; [left; auto|].
    destruct (HasSuffix url ".jpeg") eqn:E4; simpl; [left; auto|].
    destruct (HasSuffix url ".gif") eqn:E5; simpl; [left; auto|].
    destruct (HasSuffix url ".svg") eqn:E6; simpl; [left; auto|].
    destruct (Contains url "favicon") eqn:E7; simpl; [left; auto|].
    right. destruct (HasSuffix url "/"); eexists; split; reflexivity. }
  destruct Hshape as [[E Hk] | [tail [E Ht]]]; rewrite E.
  - split; [exists ""; rewrite sapp_nil_r; reflexivity|].
    split; [exact Hk | exact E].
  - split; [exists tail; reflexivity|].
    pose proof (Contains_app_r url tail "favicon" Ht) as Hc.
    split; [left; exact Hc|].
    unfold favicon_url. rewrite Hc, !andb_false_r. reflexivity.
Qed.

Lemma job_url_shape_witness :
  favicon_url "b.com/favicon.ico" = "b.com/favicon.ico".
Proof.
  apply (job_url_shape "  b.com/ " {| Job_URL := "b.com/favicon.ico" |}).
  reflexivity.
Defined.

(** ** More on the pool *)

Section PoolMore.

Context `{Codecs}.

Variable baseIcon host model : string.
Variable lines0 : list string.
Variable nworkers : Z.

Local Abbreviation step := (step baseIcon host model).
Local Abbreviation steps := (steps baseIcon host model).
Local Abbreviation run := (steps (start lines0 nworkers)).

Lemma invariant_can_send_jobs (s : pool) (url : string)
      (rest : list string) (n : Z) :
  invariant lines0 nworkers s ->
  main_at s = Sending (url :: rest) n ->
  can_send (jobs s) = true.
Proof.
  intros [Hcj Hcr Hsj Hmain Htj Htr Hurls Hret Hclo Hws] Hat.
  rewrite Hat in Hmain. destruct Hmain as (Hc & _ & _ & Hlen & _).
  unfold can_send. rewrite Hc. simpl in *. apply Nat.ltb_lt. lia.
Qed.

Lemma invariant_counts (s : pool) :
  invariant lines0 nworkers s ->
  length (sent (results s)) + length (busy (workers s)) = taken (jobs s).
Proof.
  intros [Hcj Hcr Hsj Hmain Htj Htr Hurls Hret Hclo Hws].
  apply Permutation_length in Hurls.
  rewrite length_app, !length_map, length_take in Hurls. lia.
Qed.

Lemma invariant_can_send_results (s : pool) (i : nat) (job : Job) :
  invariant lines0 nworkers s ->
  workers s !! i = Some (Processing job) ->
  can_send (results s) = true.
Proof.
  intros Hinv Hi. pose proof (invariant_counts s Hinv) as Hcount.
  destruct Hinv as [Hcj Hcr Hsj Hmain Htj Htr Hurls Hret Hclo Hws].
  unfold can_send. apply andb_true_iff. split.
  - destruct (closed (results s)) eqn:Hcl; [|reflexivity].
    pose proof (returned_at _ _ _ (Hclo eq_refl) Hi). discriminate.
  - apply Nat.ltb_lt. pose proof (busy_lookup _ _ _ Hi). lia.
Qed.

Lemma single_worker (ws : list worker_state) (i : nat) (w : worker_state) :
  length ws = 1 -> ws !! i = Some w -> ws = [w] /\ i = 0.
Proof.
  destruct ws as [|w0 [|w1 ws]]; simpl; try discriminate.
  intros _. destruct i as [|i]; simpl; [|discriminate].
  intros [= ->]. auto.
Qed.

Lemma in_order_step (s s' : pool) :
  length (workers s) = 1 ->
  taken (jobs s) <= length (sent (jobs s)) ->
  in_order s -> step s s' -> in_order s'.
Proof.
  unfold in_order. intros Hone Htj Hord Hstep.
  inversion Hstep as
    [ url rest n s0 Hat Hline
    | url rest n job s0 Hat Hline Hcan
    | n s0 Hat
    | n s0 Hat
    | i job s0 Hi Hfront
    | i job http s0 Hi Hcan
    | i s0 Hi Hdr
    | s0 Hwait Hall Hopen
    | n r s0 Hat Hfront
    | n s0 Hat Hdr ]; subst s0 s'; clear Hstep; simpl; try exact Hord.
  - rewrite take_app_le by exact Htj. exact Hord.
  - destruct (single_worker _ _ _ Hone Hi) as [Ews ->].
    rewrite Ews in Hord |- *. simpl in *.
    rewrite (take_S_r _ _ _ Hfront), map_app, <- Hord, app_nil_r.
    reflexivity.
  - destruct (single_worker _ _ _ Hone Hi) as [Ews ->].
    rewrite Ews in Hord |- *. simpl in *.
    rewrite map_app, app_nil_r. simpl. rewrite process_URL. exact Hord.
  - destruct (single_worker _ _ _ Hone Hi) as [Ews ->].
    rewrite Ews in Hord |- *. exact Hord.
Qed.

Lemma in_order_steps (s : pool) :
  nworkers = 1%Z -> run s -> in_order s.
Proof.
  intros Hn Hs. remember (start lines0 nworkers) as s0 eqn:E.
  induction Hs as [s1|s1 s2 s3 Hs IH Hstep]; subst s1.
  - unfold in_order. subst nworkers. reflexivity.
  - specialize (IH eq_refl).
    pose proof (invariant_steps baseIcon host model lines0 nworkers s2 Hs)
      as Hinv.
    eapply in_order_step; [| | exact IH | exact Hstep].
    + rewrite (inv_workers _ _ _ Hinv). subst nworkers. reflexivity.
    + apply (inv_taken_jobs _ _ _ Hinv).
Qed.

Lemma untouched_steps (s : pool) :
  (nworkers <= 0)%Z -> run s -> untouched s.
Proof.
  intros Hn Hs. remember (start lines0 nworkers) as s0 eqn:E.
  induction Hs as [s1|s1 s2 s3 Hs IH Hstep]; subst s1.
  - unfold untouched. simpl.
    replace (Z.to_nat nworkers) with 0 by lia. auto.
  - destruct (IH eq_refl) as (Hw & Hr & Ht).
    inversion Hstep; subst; unfold untouched; simpl; auto;
      match goal with
      | Hi : workers _ !! _ = Some _ |- _ =>
          rewrite Hw in Hi; discriminate
      | Hf : front (results _) = Some _ |- _ =>
          unfold front in Hf; rewrite Hr in Hf; discriminate
      end.
Qed.

End PoolMore.

(** X10.  No send ever waits, and none meets a closed channel: in every
    state the pool can reach, the job channel has room and is open when
    [main] has a job to send, and the result channel has room and is open
    when a worker has a result to send. *)
Theorem sends_never_block `{Codecs} (baseIcon host model : string)
        (lines : list string) (nworkers : Z) (s : pool) :
  steps baseIcon host model (start lines nworkers) s ->
  (forall url rest n,
      main_at s = Sending (url :: rest) n -> can_send (jobs s) = true)
  /\ (forall i job,
         workers s !! i = Some (Processing job) ->
         can_send (results s) = true).
Proof.
  intros Hs.
  pose proof (invariant_steps baseIcon host model lines nworkers s Hs) as Hinv.
  split.
  - intros url rest n. apply invariant_can_send_jobs with (1 := Hinv).
  - intros i job. apply invariant_can_send_results with (1 := Hinv).
Qed.

Lemma sends_never_block_witness :
  can_send (results example_waiting) = true.
Proof.
  destruct (@sends_never_block Reference.codecs "" "http://localhost:11434"
              "gemma3:4b" ["c.com/logo.png"] 1 example_waiting
              example_waiting_reached) as [_ Hw].
  apply (Hw 0 {| Job_URL := "c.com/logo.png" |}). reflexivity.
Defined.

(** X11.  At every moment of a run the results sent so far, together with
    the jobs being processed, are exactly the jobs taken from the job
    channel so far (same URLs, same number of times); and the jobs sent so
    far are the first jobs of the input. *)
Theorem results_account_for_jobs_taken `{Codecs}
        (baseIcon host model : string) (lines : list string) (nworkers : Z)
        (s : pool) :
  steps baseIcon host model (start lines nworkers) s ->
  map URL (sent (results s)) ++ map Job_URL (busy (workers s))
  ≡ₚ map Job_URL (take (taken (jobs s)) (sent (jobs s)))
  /\ length (sent (results s)) + length (busy (workers s)) = taken (jobs s)
  /\ taken (jobs s) <= length (sent (jobs s))
  /\ exists later, send_jobs lines = sent (jobs s) ++ later.
Proof.
  intros Hs.
  pose proof (invariant_steps baseIcon host model lines nworkers s Hs) as Hinv.
  split; [apply (inv_urls _ _ _ Hinv)|].
  split; [apply (invariant_counts lines nworkers s Hinv)|].
  split; [apply (inv_taken_jobs _ _ _ Hinv)|].
  pose proof (inv_main _ _ _ Hinv) as Hmain.
  destruct (main_at s) as [rest n|n|n|n].
  - destruct Hmain as (_ & _ & Hsend & _). eauto.
  - destruct Hmain as (_ & Hsend & _). exists []. rewrite app_nil_r. auto.
  - destruct Hmain as (_ & Hsend & _). exists []. rewrite app_nil_r. auto.
  - destruct Hmain as (_ & Hsend & _). exists []. rewrite app_nil_r. auto.
Qed.

Lemma results_account_for_jobs_taken_witness :
  length (sent (results example_waiting))
  + length (busy (workers example_waiting))
  = taken (jobs example_waiting).
Proof.
  apply (@results_account_for_jobs_taken Reference.codecs ""
           "http://localhost:11434" "gemma3:4b" ["c.com/logo.png"] 1
           example_waiting example_waiting_reached).
Defined.

(** X12.  The result channel is closed only when the job channel is
    closed and every worker has returned; from then on, with at least one
    worker, the results sent are those of all the jobs, before [main] has
    received them. *)
Theorem results_closed_last `{Codecs} (baseIcon host model : string)
        (lines : list string) (nworkers : Z) (s : pool) :
  steps baseIcon host model (start lines nworkers) s ->
  closed (results s) = true ->
  closed (jobs s) = true
  /\ all_returned (workers s) = true
  /\ ((1 <= nworkers)%Z ->
      map URL (sent (results s)) ≡ₚ map Job_URL (send_jobs lines)).
Proof.
  intros Hs Hcl.
  destruct (invariant_steps baseIcon host model lines nworkers s Hs)
    as [Hcj Hcr Hsj Hmain Htj Htr Hurls Hret Hclo Hws].
  pose proof (Hclo Hcl) as Hall.
  assert (Hjobs : closed (jobs s) = true /\ sent (jobs s) = send_jobs lines).
  { destruct (main_at s) as [rest n|n|n|n].
    - destruct Hmain as (_ & Hopen & _). congruence.
    - destruct Hmain as (Hc & Hsend & _). auto.
    - destruct Hmain as (Hc & Hsend & _). auto.
    - destruct Hmain as (Hc & Hsend & _). auto. }
  destruct Hjobs as [Hc Hsend].
  split; [exact Hc|]. split; [exact Hall|]. intros Hn.
  destruct (workers s) as [|w ws] eqn:Ews; [simpl in Hws; lia|].
  assert (Hw : w = Returned)
    by (apply (returned_at (w :: ws) 0 w Hall); reflexivity).
  subst w.
  assert (Hdj : drained (jobs s) = true) by (apply Hret; left).
  apply drained_spec in Hdj as [_ Hdj].
  rewrite (all_returned_busy _ Hall), app_nil_r in Hurls.
  rewrite take_ge in Hurls by exact Hdj.
  rewrite Hsend in Hurls. exact Hurls.
Qed.

Lemma example_closed_reached :
  steps (H := Reference.codecs) "" "http://localhost:11434" "gemma3:4b"
        (start ["  "] 1) example_closed.
Proof.
  eapply steps_step; [eapply steps_step; [eapply steps_step;
    [eapply steps_step; [eapply steps_step; [apply steps_refl|]|]|]|]|].
  - eapply (main_skips _ _ _ "  " [] 0); reflexivity.
  - eapply main_closes. reflexivity.
  - eapply (worker_returns _ _ _ 0); reflexivity.
  - eapply main_opens. reflexivity.
  - eapply waiter_closes; reflexivity.
Qed.

Lemma results_closed_last_witness :
  closed (jobs example_closed) = true
  /\ all_returned (workers example_closed) = true.
Proof.
  destruct (@results_closed_last Reference.codecs "" "http://localhost:11434"
              "gemma3:4b" ["  "] 1 example_closed example_closed_reached
              eq_refl) as (Hj & Hw & _).
  split; [exact Hj | exact Hw].
Defined.

(** X13.  With no worker (a worker count of zero or less) nothing is ever
    taken from the job channel and no result is ever sent; the run still
    completes, [main] having counted every job it sent. *)
Theorem no_worker_no_result `{Codecs} (baseIcon host model : string)
        (lines : list string) (nworkers : Z) :
  (nworkers <= 0)%Z ->
  (forall s,
      steps baseIcon host model (start lines nworkers) s ->
      sent (results s) = [] /\ taken (jobs s) = 0)
  /\ exists s,
      steps baseIcon host model (start lines nworkers) s
      /\ main_at s = Completed (Z.of_nat (length (send_jobs lines))).
Proof.
  intros Hn. split.
  - intros s Hs.
    destruct (untouched_steps baseIcon host model lines nworkers s Hn Hs)
      as (_ & Hr & Ht). auto.
  - destruct (invariant_completes baseIcon host model lines nworkers
                (start lines nworkers) (invariant_start lines nworkers))
      as (s & n & Hs & Hat).
    exists s. split; [exact Hs|].
    pose proof (invariant_steps baseIcon host model lines nworkers s Hs)
      as Hinv.
    pose proof (inv_main _ _ _ Hinv) as Hmain. rewrite Hat in Hmain.
    destruct Hmain as (_ & Hsend & Hcount & _).
    rewrite Hat, Hcount, Hsend. reflexivity.
Qed.

Lemma no_worker_no_result_witness :
  exists s,
    steps (H := Reference.codecs) "" "http://localhost:11434" "gemma3:4b"
          (start ["a.com"; "b.com"] 0) s
    /\ main_at s = Completed 2.
Proof.
  destruct (@no_worker_no_result Reference.codecs "" "http://localhost:11434"
              "gemma3:4b" ["a.com"; "b.com"] 0) as [_ Hex]; [lia|].
  exact Hex.
Defined.

(** X14.  With exactly one worker the results are sent in the order of the
    jobs: at every moment the results sent, followed by the job being
    processed if there is one, are the jobs taken so far in their order,
    and a completed run has the results of all jobs in input order. *)
Theorem one_worker_keeps_order `{Codecs} (baseIcon host model : string)
        (lines : list string) (s : pool) :
  steps baseIcon host model (start lines 1) s ->
  map URL (sent (results s)) ++ map Job_URL (busy (workers s))
  = map Job_URL (take (taken (jobs s)) (sent (jobs s)))
  /\ (forall n, main_at s = Completed n ->
                map URL (sent (results s)) = map Job_URL (send_jobs lines)).
Proof.
  intros Hs.
  pose proof (in_order_steps baseIcon host model lines 1 s eq_refl Hs) as Hord.
  split; [exact Hord|]. intros n Hat.
  destruct (invariant_steps baseIcon host model lines 1 s Hs)
    as [Hcj Hcr Hsj Hmain Htj Htr Hurls Hret Hclo Hws].
  rewrite Hat in Hmain. destruct Hmain as (Hc & Hsend & Hcount & Hdr).
  apply drained_spec in Hdr as [Hcl _].
  pose proof (Hclo Hcl) as Hall.
  destruct (workers s) as [|w ws] eqn:Ews; [simpl in Hws; lia|].
  assert (Hw : w = Returned)
    by (apply (returned_at (w :: ws) 0 w Hall); reflexivity).
  subst w.
  assert (Hdj : drained (jobs s) = true) by (apply Hret; left).
  apply drained_spec in Hdj as [_ Hdj].
  unfold in_order in Hord.
  rewrite Ews, (all_returned_busy _ Hall), app_nil_r in Hord.
  rewrite take_ge in Hord by exact Hdj.
  rewrite Hsend in Hord. exact Hord.
Qed.

Lemma one_worker_keeps_order_witness :
  map URL (sent (results example_waiting))
  ++ map Job_URL (busy (workers example_waiting))
  = map Job_URL (take (taken (jobs example_waiting))
                      (sent (jobs example_waiting))).
Proof.
  apply (@one_worker_keeps_order Reference.codecs "" "http://localhost:11434"
           "gemma3:4b" ["c.com/logo.png"] example_waiting
           example_waiting_reached).
Defined.

(** ** More on the collection of results *)

Lemma collect_no_file (c : collected) (rs : list Result) :
  disk (collect None c rs) = disk c
  /\ stdout (collect None c rs) = stdout c +:+ Spec.url_lines rs.
Proof.
  revert c. induction rs as [|r rs IH]; intros c.
  - simpl. rewrite sapp_nil_r. auto.
  - change (collect None c (r :: rs))
      with (collect None (collect_one None c r) rs).
    destruct (IH (collect_one None c r)) as [-> ->].
    rewrite url_lines_cons. unfold collect_one, line_of, Spec.is_match.
    destruct (Err r); simpl; [rewrite sapp_nil_l; auto|].
    destruct (Match r); simpl; [|rewrite sapp_nil_l; auto].
    rewrite !sapp_assoc. auto.
Qed.

(** X15.  With no output file configured the program never creates or
    writes a file, whether the system would let it or not: the files are as
    they were, and the standard output has received the matched URLs, one
    per line in their order of arrival, and nothing for the results with
    an error or without a match. *)
Theorem no_output_file_no_write (args : Arguments) (permitted : bool)
        (fs : files) (out : string) (arrived : list Result) :
  Output args = "" ->
  exists c,
    report args permitted fs out arrived = Some c
    /\ disk c = fs
    /\ stdout c = out +:+ Spec.url_lines arrived.
Proof.
  intros Hout. unfold report. rewrite Hout. simpl.
  eexists. split; [reflexivity|]. apply collect_no_file.
Qed.

Lemma no_output_file_no_write_witness :
  exists c,
    report (example_args "") false (fun _ => None) "" example_results = Some c
    /\ stdout c = Join ["a.com/favicon.ico"; "d.com/favicon.ico"; ""].
Proof.
  destruct (no_output_file_no_write (example_args "") false (fun _ => None)
                                    "" example_results eq_refl)
    as (c & Hr & _ & Hs).
  exists c. split; [exact Hr | exact Hs].
Defined.

(** X16.  When the program gets to its summary, the match count is the
    number of results with a match and no error, the error count is the
    number of results with an error (whatever their match flag), and the
    two together never exceed the number of results. *)
Theorem summary_counts (args : Arguments) (permitted : bool) (fs : files)
        (out : string) (arrived : list Result) (c : collected) :
  report args permitted fs out arrived = Some c ->
  matchCount c = Spec.count Spec.is_match arrived
  /\ errorCount c = Spec.count Spec.is_error arrived
  /\ (matchCount c + errorCount c <= Z.of_nat (length arrived))%Z.
Proof.
  unfold report. intros Hr.
  assert (Hc : exists outFile c0,
             c = collect outFile c0 arrived
             /\ matchCount c0 = 0%Z /\ errorCount c0 = 0%Z).
  { destruct (negb (String.eqb (Output args) "")).
    - destruct (os_Create permitted fs (Output args)) as [fs'|err];
        [|discriminate].
      injection Hr as <-. eexists _, _. split; [reflexivity|]. auto.
    - injection Hr as <-. eexists _, _. split; [reflexivity|]. auto. }
  destruct Hc as (outFile & c0 & -> & Hm0 & He0).
  destruct (collect_counts outFile c0 arrived) as [-> ->].
  rewrite Hm0, He0. pose proof (count_partition arrived) as Hp.
  assert (0 <= Spec.count Spec.is_nonmatch arrived)%Z
    by (unfold Spec.count; lia).
  repeat split; lia.
Qed.

Lemma summary_counts_witness :
  exists c,
    report (example_args "found.txt") true (fun _ => None) "" example_results
    = Some c
    /\ matchCount c = 2%Z /\ errorCount c = 1%Z.
Proof.
  eexists. split; [reflexivity|].
  destruct (summary_counts (example_args "found.txt") true (fun _ => None) ""
                           example_results _ eq_refl) as (Hm & He & _).
  split; [exact Hm | exact He].
Defined.

(** ** Arguments and the start of the program *)

Import Startup.

(** X17.  [Parse] gives back the arguments it was called on, unchanged,
    exactly when the base URL, the file path and the model name are all
    non-empty; otherwise it fails with "invalid arguments".  The worker
    count, the timeout and the delay are not looked at. *)
Theorem parse_accepts_iff (a : Arguments) :
  (Parse a = Success a
   <-> BaseURL a <> "" /\ FilePath a <> "" /\ Model a <> "")
  /\ (Parse a = Failure "invalid arguments"
      <-> BaseURL a = "" \/ FilePath a = "" \/ Model a = "")
  /\ (forall workers timeout delay,
         IsValid {| BaseURL := BaseURL a; OllamaHost := OllamaHost a;
                    FilePath := FilePath a; Model := Model a;
                    Workers := workers; Debug := Debug a;
                    Verbose := Verbose a; Silent := Silent a;
                    Output := Output a; TimeoutSeconds := timeout;
                    DelayMs := delay |}
         = IsValid a).
Proof.
  split; [|split; [|intros; reflexivity]]; unfold Parse, IsValid;
    destruct (String.eqb_spec (BaseURL a) ""),
      (String.eqb_spec (FilePath a) ""), (String.eqb_spec (Model a) "");
    simpl; split; intros Hp;
    try discriminate; try reflexivity; try tauto.
Qed.


(** ** Why a download fails *)

(** X19.  A download fails in one of four ways, and its message says
    which: the request failed ("error fetching", with the URL and the
    cause), the status was not 200 ("bad status for", with the URL and the
    status), the body did not decode as an image ("error decoding image
    from", with the URL and the cause), or the picture could not be encoded
    as PNG ("error encoding PNG", with the cause), which happens only for
    a format other than png. *)
Theorem download_failure_kinds `{Codecs} (o : Client) (url msg : string) :
  DownloadImageAsBase64 o url = Failure msg ->
  (exists err,
      HTTPClient o (image_request url) = Failed err
      /\ msg = "error fetching " +:+ url +:+ ": " +:+ err)
  \/ (exists status data,
         HTTPClient o (image_request url) = Answered status data
         /\ status <> 200%Z
         /\ msg = "bad status for " +:+ url +:+ ": " +:+ fmt_d status)
  \/ (exists data err,
         HTTPClient o (image_request url) = Answered 200 data
         /\ image_Decode data = Failure err
         /\ msg = "error decoding image from " +:+ url +:+ ": " +:+ err)
  \/ (exists data img format err,
         HTTPClient o (image_request url) = Answered 200 data
         /\ image_Decode data = Success (img, format)
         /\ format <> "png"
         /\ png_Encode img = Failure err
         /\ msg = "error encoding PNG: " +:+ err).
Proof.
  unfold DownloadImageAsBase64.
  destruct (HTTPClient o (image_request url)) as [err|status data] eqn:Hresp.
  { intros [= <-]. left. eauto. }
  destruct (status =? 200)%Z eqn:Hs; simpl.
  2: { apply Z.eqb_neq in Hs. intros [= <-]. right. left.
       exists status, data. auto. }
  apply Z.eqb_eq in Hs. subst status.
  destruct (image_Decode data) as [[img format]|err] eqn:Hdec.
  2: { intros [= <-]. right. right. left. eauto. }
  destruct (String.eqb format "png") eqn:Hfmt; [discriminate|].
  apply String.eqb_neq in Hfmt.
  destruct (png_Encode img) as [buf|err] eqn:Henc; [discriminate|].
  intros [= <-]. right. right. right. exists data, img, format, err. auto.
Qed.

Lemma download_failure_kinds_witness :
  @image_Decode Reference.codecs "<html>" = Failure "image: unknown format".
Proof.
  destruct (@download_failure_kinds Reference.codecs
              (Reference.always (Answered 200 "<html>") "gemma3:4b")
              "a.com/favicon.ico"
              "error decoding image from a.com/favicon.ico: image: unknown format")
    as [(err & Hf & _) | [(status & data & Hr & Hs & _)
        | [(data & err & Hr & Hd & Hm)
          | (data & img & format & err & Hr & Hd & _)]]];
    [vm_compute; reflexivity | | | | ]; vm_compute; reflexivity.
Defined.
